(** * ankitui: the review state machine, the AnkiConnect client and the view

    A shallow embedding of [main.go].  The Bubble Tea program is a pure
    [Update] function from a model and a message to a model and a command,
    a [View] function from a model to a frame, and two commands that talk
    to AnkiConnect over HTTP.  The libraries the program calls (net/http,
    encoding/json, lipgloss) are taken as records of functions; the Go
    runtime's choice of a map iteration order is taken as an argument of
    [View]. *)

From Stdlib Require Import ZArith String Ascii DecimalString DecimalPos DecimalZ Floats Lia.
From stdpp Require Import base option list gmap strings relations sorting.

Local Open Scope string_scope.
Local Open Scope Z_scope.

(** ** Go basics *)

Module Go.

(** [int] is 64 bits wide; [++] wraps around. *)
Definition intMax : Z := 2 ^ 63 - 1.
Definition intMin : Z := - 2 ^ 63.
Definition wrap_int (z : Z) : Z := (z + 2 ^ 63) mod 2 ^ 64 - 2 ^ 63.
Definition incr (i : Z) : Z := wrap_int (i + 1).

(** [len(s)] of a slice. *)
Definition len {A} (s : list A) : Z := Z.of_nat (length s).

(** A call either returns or panics. *)
Inductive outcome (A : Type) : Type :=
| Ret (a : A)
| Panic (msg : string).
Arguments Ret {A} a.
Arguments Panic {A} msg.

(** [s[i]]: a run-time panic outside [0, len(s)). *)
Definition index {A} (s : list A) (i : Z) : outcome A :=
  if (0 <=? i) && (i <? len s) then
    match s !! Z.to_nat i with
    | Some x => Ret x
    | None => Panic "index out of range"
    end
  else Panic "index out of range".

(** The [error] interface: a plain error, or one built by [fmt.Errorf]
    with [%w], which keeps the wrapped error next to the whole text. *)
Inductive error : Type :=
| errorString (s : string)
| wrapError (msg : string) (err : error).

Definition Error (e : error) : string :=
  match e with
  | errorString s => s
  | wrapError msg _ => msg
  end.

Definition Unwrap (e : error) : option error :=
  match e with
  | errorString _ => None
  | wrapError _ err => Some err
  end.

(** [fmt.Errorf(pre + "%w" + post, err)] *)
Definition Errorf_w (pre : string) (err : error) (post : string) : error :=
  wrapError (pre +:+ Error err +:+ post) err.

(** [%d] of an int. *)
Definition itoa (z : Z) : string := NilZero.string_of_int (Z.to_int z).

(** The line feed and the double quote, which a literal cannot hold. *)
Definition nl : string := String (ascii_of_nat 10) EmptyString.
Definition dq : string := String (ascii_of_nat 34) EmptyString.

(** [strconv.Atoi]: an optional sign and decimal digits, within [int]. *)
Definition is_digit (c : ascii) : bool :=
  let n := Z.of_N (N_of_ascii c) in (48 <=? n) && (n <=? 57).

Fixpoint digits (s : string) (acc : Z) : option Z :=
  match s with
  | EmptyString => Some acc
  | String c s' =>
      if is_digit c
      then digits s' (10 * acc + (Z.of_N (N_of_ascii c) - 48))
      else None
  end.

Definition NumError (s why : string) : error :=
  errorString ("strconv.Atoi: parsing " +:+ dq +:+ s +:+ dq +:+ ": " +:+ why).

Definition Atoi (s : string) : Z * option error :=
  let '(neg, body) :=
    match s with
    | String c s' =>
        if Ascii.eqb c "-" then (true, s')
        else if Ascii.eqb c "+" then (false, s')
        else (false, s)
    | EmptyString => (false, s)
    end in
  match body with
  | EmptyString => (0, Some (NumError s "invalid syntax"))
  | _ =>
      match digits body 0 with
      | None => (0, Some (NumError s "invalid syntax"))
      | Some n =>
          let v := if neg then - n else n in
          if v <? intMin then (intMin, Some (NumError s "value out of range"))
          else if intMax <? v then (intMax, Some (NumError s "value out of range"))
          else (v, None)
      end
  end.

End Go.
Import Go.

(** ** lipgloss *)

Module lipgloss.

Inductive Position := Center.

(** A style is the set of attributes the builder calls of [newStyles]
    set on it. *)
Record Style := mkStyle {
  bold : bool;
  foreground : option string;
  background : option string;
  padding : Z * Z * Z * Z;        (* top, right, bottom, left *)
  marginRight : Z;
  border : option string;
  borderForeground : option string;
  width : option Z;
  align : option Position
}.

Definition NewStyle : Style :=
  mkStyle false None None (0, 0, 0, 0) 0 None None None None.

Definition Bold (b : bool) (s : Style) : Style :=
  mkStyle b (foreground s) (background s) (padding s) (marginRight s)
          (border s) (borderForeground s) (width s) (align s).
Definition Foreground (c : string) (s : Style) : Style :=
  mkStyle (bold s) (Some c) (background s) (padding s) (marginRight s)
          (border s) (borderForeground s) (width s) (align s).
Definition Background (c : string) (s : Style) : Style :=
  mkStyle (bold s) (foreground s) (Some c) (padding s) (marginRight s)
          (border s) (borderForeground s) (width s) (align s).
Definition Padding (v h : Z) (s : Style) : Style :=
  mkStyle (bold s) (foreground s) (background s) (v, h, v, h) (marginRight s)
          (border s) (borderForeground s) (width s) (align s).
Definition PaddingTop (t : Z) (s : Style) : Style :=
  let '(_, r, b, l) := padding s in
  mkStyle (bold s) (foreground s) (background s) (t, r, b, l) (marginRight s)
          (border s) (borderForeground s) (width s) (align s).
Definition MarginRight (n : Z) (s : Style) : Style :=
  mkStyle (bold s) (foreground s) (background s) (padding s) n
          (border s) (borderForeground s) (width s) (align s).
Definition Border (b : string) (s : Style) : Style :=
  mkStyle (bold s) (foreground s) (background s) (padding s) (marginRight s)
          (Some b) (borderForeground s) (width s) (align s).
Definition BorderForeground (c : string) (s : Style) : Style :=
  mkStyle (bold s) (foreground s) (background s) (padding s) (marginRight s)
          (border s) (Some c) (width s) (align s).
Definition Width (w : Z) (s : Style) : Style :=
  mkStyle (bold s) (foreground s) (background s) (padding s) (marginRight s)
          (border s) (borderForeground s) (Some w) (align s).
Definition Align (p : Position) (s : Style) : Style :=
  mkStyle (bold s) (foreground s) (background s) (padding s) (marginRight s)
          (border s) (borderForeground s) (width s) (Some p).

(** What the library does with a style and with a column of blocks. *)
Record Terminal := mkTerminal {
  Render : Style → string → string;
  JoinVertical : Position → list string → string
}.

End lipgloss.

(** ** The data of the program *)

Definition ankiConnectURL : string := "http://localhost:8765".

Record Card := mkCard {
  ID : Z;
  Front : string;
  Back : string;
  EaseOptions : gmap Z string
}.

Inductive appState :=
| stateLoading
| stateDisplayingCard
| stateNoCards
| stateError
| stateQuitting.

Global Instance appState_eq_dec : EqDecision appState.
Proof. solve_decision. Defined.

Record styles := mkStyles {
  title : lipgloss.Style;
  status : lipgloss.Style;
  card : lipgloss.Style;
  front : lipgloss.Style;
  back : lipgloss.Style;
  prompt : lipgloss.Style;
  error_ : lipgloss.Style;
  button : lipgloss.Style
}.

Record model := mkModel {
  cards : list Card;
  currentCardIndex : Z;
  showBack : bool;
  state : appState;
  err : option error;
  model_ankiConnectURL : string;
  quitting : bool;
  model_styles : styles
}.

(** Field assignments [m.f = v]. *)
Definition set_cards (v : list Card) (m : model) : model :=
  mkModel v (currentCardIndex m) (showBack m) (state m) (err m)
          (model_ankiConnectURL m) (quitting m) (model_styles m).
Definition set_currentCardIndex (v : Z) (m : model) : model :=
  mkModel (cards m) v (showBack m) (state m) (err m)
          (model_ankiConnectURL m) (quitting m) (model_styles m).
Definition set_showBack (v : bool) (m : model) : model :=
  mkModel (cards m) (currentCardIndex m) v (state m) (err m)
          (model_ankiConnectURL m) (quitting m) (model_styles m).
Definition set_state (v : appState) (m : model) : model :=
  mkModel (cards m) (currentCardIndex m) (showBack m) v (err m)
          (model_ankiConnectURL m) (quitting m) (model_styles m).
Definition set_err (v : error) (m : model) : model :=
  mkModel (cards m) (currentCardIndex m) (showBack m) (state m) (Some v)
          (model_ankiConnectURL m) (quitting m) (model_styles m).
Definition set_quitting (v : bool) (m : model) : model :=
  mkModel (cards m) (currentCardIndex m) (showBack m) (state m) (err m)
          (model_ankiConnectURL m) v (model_styles m).

(** Messages.  A key message is known to [Update] by its [String()]. *)
Inductive Msg :=
| KeyMsg (key : string)
| cardsLoadedMsg (cs : list Card)
| errMsg (e : error)
| cardAnsweredMsg (cardID ease : Z)
| otherMsg.

(** Commands: what [Update] hands back to the runtime ([nil] is [None]). *)
Inductive Cmd :=
| Quit
| fetchDueCards
| answerCard (cardID ease : Z).

Definition newStyles : styles :=
  let open := lipgloss.NewStyle in
  {| title := lipgloss.Padding 0 1 (lipgloss.Foreground "#7D56F4" (lipgloss.Bold true open));
     status := lipgloss.Padding 0 1 (lipgloss.Foreground "#888888" open);
     card := lipgloss.Align lipgloss.Center (lipgloss.Width 60 (lipgloss.Padding 1 2
               (lipgloss.BorderForeground "#6243A6" (lipgloss.Border "rounded" open))));
     front := lipgloss.Padding 0 1 (lipgloss.Foreground "#FFFFFF" (lipgloss.Bold true open));
     back := lipgloss.Padding 0 1 (lipgloss.Foreground "#DDDDDD" open);
     prompt := lipgloss.PaddingTop 1 (lipgloss.Foreground "#AAAAAA" open);
     error_ := lipgloss.Padding 0 1 (lipgloss.Bold true (lipgloss.Foreground "#FF0000" open));
     button := lipgloss.MarginRight 1 (lipgloss.Padding 0 1
                 (lipgloss.Background "#5A56E0" (lipgloss.Foreground "#FFFFFF" open))) |}.

Definition InitialModel : model :=
  {| cards := [];
     currentCardIndex := 0;
     showBack := false;
     state := stateLoading;
     err := None;
     model_ankiConnectURL := ankiConnectURL;
     quitting := false;
     model_styles := newStyles |}.

(** [Init] starts the fetch. *)
Definition Init (m : model) : option Cmd := Some fetchDueCards.

(** ** Update *)

Definition key_in (k : string) (ks : list string) : bool :=
  existsb (String.eqb k) ks.

(** The skip key and the answered message advance in the same way. *)
Definition advance (m : model) : model :=
  let m := set_currentCardIndex (incr (currentCardIndex m)) m in
  let m := set_showBack false m in
  if len (cards m) <=? currentCardIndex m then set_state stateNoCards m else m.

Definition Update (m : model) (msg : Msg) : outcome (model * option Cmd) :=
  match msg with
  | KeyMsg k =>
      if key_in k ["q"; "ctrl+c"] then
        Ret (set_quitting true m, Some Quit)
      else if key_in k ["enter"] then
        if decide (state m = stateDisplayingCard) then
          if showBack m then Ret (m, None)
          else Ret (set_showBack true m, None)
        else Ret (m, None)
      else if key_in k ["1"; "2"; "3"; "4"] then
        if bool_decide (state m = stateDisplayingCard) && showBack m then
          match Atoi k with
          | (_, Some e) =>
              Ret (set_state stateError (set_err (Errorf_w "invalid ease input: " e "") m),
                   None)
          | (ease, None) =>
              if currentCardIndex m <? len (cards m) then
                match index (cards m) (currentCardIndex m) with
                | Panic msg => Panic msg
                | Ret card =>
                    match EaseOptions card !! ease with
                    | Some _ => Ret (m, Some (answerCard (ID card) ease))
                    | None => Ret (m, None)
                    end
                end
              else Ret (m, None)
          end
        else Ret (m, None)
      else if key_in k ["right"; "n"] then
        if decide (state m = stateDisplayingCard) then Ret (advance m, None)
        else Ret (m, None)
      else Ret (m, None)
  | cardsLoadedMsg cs =>
      if len cs =? 0 then Ret (set_state stateNoCards m, None)
      else Ret (set_showBack false (set_currentCardIndex 0
                  (set_state stateDisplayingCard (set_cards cs m))), None)
  | cardAnsweredMsg _ _ => Ret (advance m, None)
  | errMsg e => Ret (set_state stateError (set_err e m), None)
  | otherMsg => Ret (m, None)
  end.


(** ** View *)

(** The order in which a [range] loop visits a map is the runtime's choice
    and may differ from one loop to the next; [View] takes it as an
    argument.  A legal order visits every entry once. *)
Definition range_order : Type := gmap Z string → list (Z * string).

Definition legal_order (ρ : range_order) : Prop :=
  ∀ m : gmap Z string, ρ m ≡ₚ map_to_list m.

(** The loop that appends one button per entry of [card.EaseOptions]. *)
Definition buttons (T : lipgloss.Terminal) (m : model)
    (entries : list (Z * string)) (cardContent : string) : string :=
  foldl (λ acc e,
           acc +:+ " " +:+
           lipgloss.Render T (button (model_styles m))
                           (itoa e.1 +:+ ": " +:+ e.2))
        cardContent entries.

Definition fmt_v_error (e : option error) : string :=
  match e with
  | None => "<nil>"
  | Some e => Error e
  end.

Definition View (T : lipgloss.Terminal) (ρ : range_order) (m : model)
  : outcome string :=
  if quitting m then Ret ("Exiting Anki Study TUI..." +:+ nl)
  else
    let st := model_styles m in
    let header := lipgloss.Render T (title st) "Anki Study TUI" in
    let frame status s :=
      lipgloss.JoinVertical T lipgloss.Center [header; status; s] in
    match state m with
    | stateLoading =>
        Ret (frame "" ("Loading cards from AnkiConnect..." +:+ nl))
    | stateDisplayingCard =>
        if (0 <? len (cards m)) && (currentCardIndex m <? len (cards m)) then
          match index (cards m) (currentCardIndex m) with
          | Panic msg => Panic msg
          | Ret c =>
              let status :=
                lipgloss.Render T (status st)
                  ("Card " +:+ itoa (incr (currentCardIndex m)) +:+ "/"
                   +:+ itoa (len (cards m))) in
              let cardContent := lipgloss.Render T (front st) (Front c) in
              let cardContent :=
                if showBack m then
                  let cardContent :=
                    cardContent +:+ nl +:+ nl +:+ lipgloss.Render T (back st) (Back c) in
                  let cardContent :=
                    cardContent +:+ nl +:+ nl
                    +:+ lipgloss.Render T (prompt st) "Press 1-4 to answer:" in
                  buttons T m (ρ (EaseOptions c)) cardContent
                else
                  cardContent +:+ nl +:+ nl
                  +:+ lipgloss.Render T (prompt st) "Press ENTER to reveal back" in
              Ret (frame status (lipgloss.Render T (card st) cardContent))
          end
        else Ret (frame "" "")
    | stateNoCards =>
        Ret (frame "" ("No cards due today! Great job!" +:+ nl
                       +:+ lipgloss.Render T (prompt st) "Press 'q' to quit."))
    | stateError =>
        Ret (frame "" (lipgloss.Render T (error_ st)
                         ("Error: " +:+ fmt_v_error (err m) +:+ nl)
                       +:+ lipgloss.Render T (prompt st) "Press 'q' to quit."))
    | stateQuitting => Ret (frame "" "")
    end.

(** ** The AnkiConnect client *)

(** A decoded JSON value, as [encoding/json] stores it in an
    [interface{}]: nil, bool, float64, string, []interface{} or
    map[string]interface{} (its entries in the order [fmt] prints them). *)
#[local] Unset Elimination Schemes.
Inductive json :=
| JNull
| JBool (b : bool)
| JNum (f : float)
| JStr (s : string)
| JArr (l : list json)
| JObj (fields : list (string * json)).
#[local] Set Elimination Schemes.

Inductive Params :=
| findCardsParams (Query : string)
| cardsInfoParams (Cards : list Z)
| answerCardsParams (CardID : Z) (Ease : Z).

Record AnkiConnectRequest := mkRequest {
  Action : string;
  Version : Z;
  Params_ : Params
}.

Record AnkiConnectResponse := mkResponse {
  Result : json;
  Error_ : json
}.

Record cardInfoResult := mkCardInfo {
  CardID : Z;
  Fields_Front_Value : string;
  Fields_Back_Value : string;
  Buttons : list Z
}.

(** An HTTP response: its status and what reading its body gives. *)
Record HTTPResponse := mkHTTP {
  StatusCode : Z;
  Body : string + error
}.

(** The library calls of the client, each giving a value or an error:
    [json.Marshal] at the two types it is called at, [http.Post],
    [json.Unmarshal] at the two types it is called at, and [fmt]'s text
    for a float64. *)
Record Platform := mkPlatform {
  Marshal_request : AnkiConnectRequest → string + error;
  Post : string → string → string → HTTPResponse + error;
  Unmarshal_response : string → AnkiConnectResponse + error;
  Marshal_value : json → string + error;
  Unmarshal_cardInfo : string → cardInfoResult + error;
  Sprint_float64 : float → string
}.

(** [%v] of a decoded value. *)
Fixpoint fmt_v (P : Platform) (j : json) : string :=
  match j with
  | JNull => "<nil>"
  | JBool true => "true"
  | JBool false => "false"
  | JNum f => Sprint_float64 P f
  | JStr s => s
  | JArr l =>
      "[" +:+
      (fix elems (l : list json) : string :=
         match l with
         | [] => ""
         | x :: l' =>
             match l' with
             | [] => fmt_v P x
             | _ => fmt_v P x +:+ " " +:+ elems l'
             end
         end) l +:+ "]"
  | JObj kvs =>
      "map[" +:+
      (fix entries (l : list (string * json)) : string :=
         match l with
         | [] => ""
         | (k, x) :: l' =>
             match l' with
             | [] => k +:+ ":" +:+ fmt_v P x
             | _ => k +:+ ":" +:+ fmt_v P x +:+ " " +:+ entries l'
             end
         end) kvs +:+ "]"
  end.

(** [%T] of a decoded value. *)
Definition fmt_T (j : json) : string :=
  match j with
  | JNull => "<nil>"
  | JBool _ => "bool"
  | JNum _ => "float64"
  | JStr _ => "string"
  | JArr _ => "[]interface {}"
  | JObj _ => "map[string]interface {}"
  end.

(** [int64(f)]: truncation towards zero; outside int64 (and for NaN and
    the infinities) the amd64 conversion gives the least int64. *)
Definition int64_of_float64 (f : float) : Z :=
  match Prim2SF f with
  | S754_zero _ => 0
  | S754_finite s m e =>
      let a := if 0 <=? e then Z.shiftl (Z.pos m) e else Z.shiftr (Z.pos m) (- e) in
      let v := if s then - a else a in
      if (intMin <=? v) && (v <=? intMax) then v else intMin
  | _ => intMin
  end.

Definition postAnkiConnect (P : Platform) (action : string) (version : Z)
    (params : Params) : json + error :=
  match Marshal_request P (mkRequest action version params) with
  | inr err => inr (Errorf_w "failed to marshal request: " err "")
  | inl reqBody =>
      match Post P ankiConnectURL "application/json" reqBody with
      | inr err =>
          inr (Errorf_w
                 ("failed to connect to AnkiConnect at " +:+ ankiConnectURL +:+ ": ")
                 err
                 (nl +:+ "Ensure Anki is running and AnkiConnect add-on is installed."))
      | inl resp =>
          match Body resp with
          | inr err => inr (Errorf_w "failed to read response body: " err "")
          | inl body =>
              match Unmarshal_response P body with
              | inr err =>
                  inr (Errorf_w "failed to unmarshal AnkiConnect response: " err "")
              | inl ankiResp =>
                  match Error_ ankiResp with
                  | JNull => inl (Result ankiResp)
                  | e => inr (errorString ("AnkiConnect error: " +:+ fmt_v P e))
                  end
              end
          end
      end
  end.

Definition defaultEaseLabels : gmap Z string :=
  <[1 := "Again"]> (<[2 := "Hard"]> (<[3 := "Good"]> (<[4 := "Easy"]> ∅))).

(** The loop over [ci.Buttons] that fills [easeOptions]. *)
Definition easeOptionsOf (Buttons : list Z) : gmap Z string :=
  foldl (λ easeOptions easeVal,
           match defaultEaseLabels !! easeVal with
           | Some label => <[easeVal := label]> easeOptions
           | None => <[easeVal := "Ease " +:+ itoa easeVal]> easeOptions
           end)
        ∅ Buttons.

Definition cardOf (ci : cardInfoResult) : Card :=
  {| ID := CardID ci;
     Front := Fields_Front_Value ci;
     Back := Fields_Back_Value ci;
     EaseOptions := easeOptionsOf (Buttons ci) |}.

(** One round of the loop over [infos]: a record that does not marshal
    or unmarshal is logged and skipped. *)
Definition parseInfo (P : Platform) (info : json) : option cardInfoResult :=
  match Marshal_value P info with
  | inr _ => None
  | inl infoBytes =>
      match Unmarshal_cardInfo P infoBytes with
      | inr _ => None
      | inl ci => Some ci
      end
  end.

Definition floatID (id : json) : option Z :=
  match id with
  | JNum f => Some (int64_of_float64 f)
  | _ => None
  end.

(** The message the fetch command delivers. *)
Definition fetchDueCardsCmd (P : Platform) : Msg :=
  match postAnkiConnect P "findCards" 6 (findCardsParams "is:due") with
  | inr err => errMsg (Errorf_w "failed to find due cards: " err "")
  | inl findCardsResult =>
      match findCardsResult with
      | JArr ids =>
          let cardIDs := omap floatID ids in
          if len cardIDs =? 0 then cardsLoadedMsg []
          else
            match postAnkiConnect P "cardsInfo" 6 (cardsInfoParams cardIDs) with
            | inr err => errMsg (Errorf_w "failed to get cards info: " err "")
            | inl cardsInfoResult =>
                match cardsInfoResult with
                | JArr infos =>
                    cardsLoadedMsg (cardOf <$> omap (parseInfo P) infos)
                | _ =>
                    errMsg (errorString ("unexpected cardsInfo result format: "
                                         +:+ fmt_T cardsInfoResult))
                end
            end
      | _ =>
          errMsg (errorString ("unexpected findCards result format: "
                               +:+ fmt_T findCardsResult))
      end
  end.

(** The message the answer command delivers. *)
Definition answerCardCmd (P : Platform) (cardID ease : Z) : Msg :=
  match postAnkiConnect P "answerCards" 6 (answerCardsParams cardID ease) with
  | inr err =>
      errMsg (Errorf_w ("failed to answer card " +:+ itoa cardID +:+ " with ease "
                        +:+ itoa ease +:+ ": ") err "")
  | inl _ => cardAnsweredMsg cardID ease
  end.

(** ** The program under the Bubble Tea runtime *)

(** Running a command against the platform of the moment gives the one
    message it delivers.  [tea.Quit] delivers nothing to [Update]. *)
Definition run (P : Platform) (c : Cmd) : option Msg :=
  match c with
  | Quit => None
  | fetchDueCards => Some (fetchDueCardsCmd P)
  | answerCard cardID ease => Some (answerCardCmd P cardID ease)
  end.

Definition is_task (c : Cmd) : bool :=
  match c with
  | Quit => false
  | _ => true
  end.

(** The network tasks a returned command starts. *)
Definition dispatch (c : option Cmd) : list Cmd :=
  match c with
  | Some c => if is_task c then [c] else []
  | None => []
  end.

(** The model together with the tasks that were started and have not
    delivered their message yet. *)
Record system := mkSystem {
  mdl : model;
  pending : list Cmd
}.

Definition start : system :=
  {| mdl := InitialModel; pending := dispatch (Init InitialModel) |}.

(** A slice has at most [intMax] elements. *)
Definition fits (msg : Msg) : Prop :=
  match msg with
  | cardsLoadedMsg cs => len cs ≤ intMax
  | _ => True
  end.

(** One turn of the event loop: a key press, another message of the
    runtime, or the completion of a pending task, in any order.  A panic
    of [Update] ends the program, so it has no successor.  The runtime
    stops once it reads the message of [tea.Quit]; messages queued before
    that are still handled, and the relation does not cut them off, so
    every state the program can be in is reachable in it. *)
Inductive step (s : system) : system → Prop :=
| step_key k m' c :
    Update (mdl s) (KeyMsg k) = Ret (m', c) →
    step s {| mdl := m'; pending := pending s ++ dispatch c |}
| step_other m' c :
    Update (mdl s) otherMsg = Ret (m', c) →
    step s {| mdl := m'; pending := pending s ++ dispatch c |}
| step_done i t P msg m' c :
    pending s !! i = Some t →
    run P t = Some msg →
    fits msg →
    Update (mdl s) msg = Ret (m', c) →
    step s {| mdl := m'; pending := delete i (pending s) ++ dispatch c |}.

Definition reachable (s : system) : Prop := rtc step start s.

(** ** Concrete terminals, platforms and states *)

(** A terminal that draws no decoration and stacks blocks line by line. *)
Definition plain : lipgloss.Terminal :=
  {| lipgloss.Render := λ _ s, s;
     lipgloss.JoinVertical := λ _ blocks, String.concat nl blocks |}.

(** The record of card 101, as [cardsInfo] describes it. *)
Definition info101 : cardInfoResult :=
  {| CardID := 101;
     Fields_Front_Value := "2+2";
     Fields_Back_Value := "4";
     Buttons := [1; 2; 3; 4] |}.

Definition card101 : Card := cardOf info101.

(** A platform on which AnkiConnect is up and has card 101 due.  The wire
    format is cut down to the name of the action. *)
Definition anki_up : Platform :=
  {| Marshal_request := λ r, inl (Action r);
     Post := λ _ _ body, inl {| StatusCode := 200; Body := inl body |};
     Unmarshal_response := λ body,
       if String.eqb body "findCards" then
         inl {| Result := JArr [JNum 101%float]; Error_ := JNull |}
       else if String.eqb body "cardsInfo" then
         inl {| Result := JArr [JObj [("cardId", JNum 101%float)]]; Error_ := JNull |}
       else inl {| Result := JNull; Error_ := JNull |};
     Marshal_value := λ _, inl "card 101";
     Unmarshal_cardInfo := λ _, inl info101;
     Sprint_float64 := λ _, "101" |}.

(** A platform on which nothing listens on the port. *)
Definition refused : error :=
  errorString "dial tcp 127.0.0.1:8765: connect: connection refused".

Definition anki_down : Platform :=
  {| Marshal_request := λ r, inl (Action r);
     Post := λ _ _ _, inr refused;
     Unmarshal_response := λ _, inr (errorString "unexpected end of JSON input");
     Marshal_value := λ _, inl "";
     Unmarshal_cardInfo := λ _, inr (errorString "unexpected end of JSON input");
     Sprint_float64 := λ _, "" |}.

(** A platform that answers every request with status 500 and a body
    that decodes to an empty result and a null error. *)
Definition anki_500 : Platform :=
  {| Marshal_request := λ r, inl (Action r);
     Post := λ _ _ _, inl {| StatusCode := 500; Body := inl "500" |};
     Unmarshal_response := λ _, inl {| Result := JArr []; Error_ := JNull |};
     Marshal_value := λ _, inl "";
     Unmarshal_cardInfo := λ _, inr (errorString "unexpected end of JSON input");
     Sprint_float64 := λ _, "" |}.

(** The states of a session with card 101: its front shown, its back
    shown, the session failed, the session over. *)
Definition m_front : model :=
  {| cards := [card101];
     currentCardIndex := 0;
     showBack := false;
     state := stateDisplayingCard;
     err := None;
     model_ankiConnectURL := ankiConnectURL;
     quitting := false;
     model_styles := newStyles |}.

Definition m_back : model := set_showBack true m_front.

Definition answer_failed : error :=
  Errorf_w "failed to answer card 101 with ease 3: "
    (Errorf_w ("failed to connect to AnkiConnect at " +:+ ankiConnectURL +:+ ": ")
       refused
       (nl +:+ "Ensure Anki is running and AnkiConnect add-on is installed."))
    "".

Definition m_failed : model := set_state stateError (set_err answer_failed m_back).

Definition m_over : model := advance m_failed.

(** Card 101 shown, its back revealed, one answer on its way. *)
Definition s_answering : system :=
  {| mdl := m_back; pending := [answerCard 101 3] |}.

(** The same after the key 3 was pressed once more. *)
Definition s_answering_twice : system :=
  {| mdl := m_back; pending := [answerCard 101 3; answerCard 101 3] |}.

(** The first answer failed, the second is still on its way. *)
Definition s_failed_pending : system :=
  {| mdl := m_failed; pending := [answerCard 101 3] |}.

(** A model no run produces: a negative cursor on a non-empty list. *)
Definition m_negative : model := set_currentCardIndex (-1) m_front.

(** Two legal iteration orders: by rising and by falling ease. *)
Definition by_ease (a b : Z * string) : Prop := a.1 ≤ b.1.

Global Instance by_ease_dec a b : Decision (by_ease a b).
Proof. unfold by_ease. apply _. Defined.

Definition ascending : range_order := λ m, merge_sort by_ease (map_to_list m).
Definition descending : range_order := λ m, reverse (ascending m).

(** Card 102 has the buttons Again and Good only. *)
Definition info102 : cardInfoResult :=
  {| CardID := 102;
     Fields_Front_Value := "3*3";
     Fields_Back_Value := "9";
     Buttons := [1; 3] |}.

Definition m_back102 : model :=
  {| cards := [cardOf info102];
     currentCardIndex := 0;
     showBack := true;
     state := stateDisplayingCard;
     err := None;
     model_ankiConnectURL := ankiConnectURL;
     quitting := false;
     model_styles := newStyles |}.

(** The frames of card 101 with its back revealed, under the two orders. *)
Definition frame101 (controls : string) : string :=
  "Anki Study TUI" +:+ nl +:+ "Card 1/1" +:+ nl +:+ "2+2" +:+ nl +:+ nl +:+ "4"
  +:+ nl +:+ nl +:+ "Press 1-4 to answer:" +:+ controls.

(** ** Predicates of the statements *)

Definition in_int (i : Z) : Prop := intMin ≤ i ≤ intMax.

(** While the fetch is on its way nothing else is, and the model is the
    initial one up to [quitting]. *)
Definition loading_inv (s : system) : Prop :=
  pending s = [fetchDueCards] ∧
  state (mdl s) = stateLoading ∧
  cards (mdl s) = [] ∧
  currentCardIndex (mdl s) = 0 ∧
  showBack (mdl s) = false ∧
  err (mdl s) = None.

Definition is_answer (c : Cmd) : Prop := ∃ cardID ease, c = answerCard cardID ease.

(** Once the fetch has delivered, only answers are on their way, and a
    displayed card exists. *)
Definition loaded_inv (s : system) : Prop :=
  Forall is_answer (pending s) ∧
  state (mdl s) ≠ stateLoading ∧
  state (mdl s) ≠ stateQuitting ∧
  len (cards (mdl s)) ≤ intMax ∧
  in_int (currentCardIndex (mdl s)) ∧
  (state (mdl s) = stateDisplayingCard →
   0 ≤ currentCardIndex (mdl s) < len (cards (mdl s))).

Definition Inv (s : system) : Prop := loading_inv s ∨ loaded_inv s.

(** The label the specification gives to a button code. *)
Definition ease_label (N : Z) : string :=
  if N =? 1 then "Again"
  else if N =? 2 then "Hard"
  else if N =? 3 then "Good"
  else if N =? 4 then "Easy"
  else "Ease " +:+ itoa N.

(** What went wrong in a call of [postAnkiConnect], read off the text of
    the error it returned. *)
Inductive cause := Unencodable | Unreachable | Unreadable | Undecodable | Reported.

Fixpoint has_prefix (p s : string) {struct p} : bool :=
  match p with
  | EmptyString => true
  | String a p' =>
      match s with
      | EmptyString => false
      | String b s' => Ascii.eqb a b && has_prefix p' s'
      end
  end.

Definition cause_of (e : error) : option cause :=
  let msg := Error e in
  if has_prefix "failed to marshal request: " msg then Some Unencodable
  else if has_prefix "failed to connect to AnkiConnect at " msg then Some Unreachable
  else if has_prefix "failed to read response body: " msg then Some Unreadable
  else if has_prefix "failed to unmarshal AnkiConnect response: " msg then Some Undecodable
  else if has_prefix "AnkiConnect error: " msg then Some Reported
  else None.

(** A network call of the fetch failed with [e]; [pre] names the call. *)
Inductive fetch_call_failed (P : Platform) (e : error) : string → Prop :=
| find_failed :
    postAnkiConnect P "findCards" 6 (findCardsParams "is:due") = inr e →
    fetch_call_failed P e "failed to find due cards: "
| info_failed ids :
    postAnkiConnect P "findCards" 6 (findCardsParams "is:due") = inl (JArr ids) →
    omap floatID ids ≠ [] →
    postAnkiConnect P "cardsInfo" 6 (cardsInfoParams (omap floatID ids)) = inr e →
    fetch_call_failed P e "failed to get cards info: ".

(** The frame with the header and nothing of a card. *)
Definition bare (T : lipgloss.Terminal) (m : model) : string :=
  lipgloss.JoinVertical T lipgloss.Center
    [lipgloss.Render T (title (model_styles m)) "Anki Study TUI"; ""; ""].

(** The one shape of model on which [View] indexes outside the list. *)
Definition negative_cursor_shown (m : model) : Prop :=
  quitting m = false ∧ state m = stateDisplayingCard ∧
  currentCardIndex m < 0 ∧ 0 < len (cards m).

(** What a key press can do. *)
Inductive key_effect (m : model) : model → option Cmd → Prop :=
| key_quit : key_effect m (set_quitting true m) (Some Quit)
| key_nothing : key_effect m m None
| key_reveal :
    state m = stateDisplayingCard → showBack m = false →
    key_effect m (set_showBack true m) None
| key_answer c ease :
    state m = stateDisplayingCard → showBack m = true →
    index (cards m) (currentCardIndex m) = Ret c →
    is_Some (EaseOptions c !! ease) →
    key_effect m m (Some (answerCard (ID c) ease))
| key_skip :
    state m = stateDisplayingCard →
    key_effect m (advance m) None.

(** ** Runs of messages *)

(** Messages handled one after the other; the network tasks they start
    are collected in order. *)
Fixpoint feed (m : model) (msgs : list Msg) : outcome (model * list Cmd) :=
  match msgs with
  | [] => Ret (m, [])
  | msg :: msgs =>
      match Update m msg with
      | Panic e => Panic e
      | Ret (m', c) =>
          match feed m' msgs with
          | Panic e => Panic e
          | Ret (m'', cs) => Ret (m'', (dispatch c ++ cs)%list)
          end
      end
  end.

(** A pending command is a fetch during Loading, or an answer for a card
    of the list with one of its ease options, which is one of 1-4. *)
Definition legal_task (m : model) (c : Cmd) : Prop :=
  match c with
  | Quit => False
  | fetchDueCards => state m = stateLoading
  | answerCard cardID ease =>
      1 ≤ ease ≤ 4 ∧
      ∃ card, card ∈ cards m ∧ ID card = cardID ∧ is_Some (EaseOptions card !! ease)
  end.

(** A session of three cards, the second one shown. *)
Definition m_three : model :=
  {| cards := [card101; cardOf info102; card101];
     currentCardIndex := 1;
     showBack := true;
     state := stateDisplayingCard;
     err := None;
     model_ankiConnectURL := ankiConnectURL;
     quitting := false;
     model_styles := newStyles |}.

(** A platform whose every response decodes to an object without
    [result] and without [error]. *)
Definition anki_null : Platform :=
  {| Marshal_request := λ r, inl (Action r);
     Post := λ _ _ _, inl {| StatusCode := 200; Body := inl "{}" |};
     Unmarshal_response := λ _, inl {| Result := JNull; Error_ := JNull |};
     Marshal_value := λ _, inl "";
     Unmarshal_cardInfo := λ _, inr (errorString "unexpected end of JSON input");
     Sprint_float64 := λ _, "" |}.

(** Card 103 has the one button Good. *)
Definition info103 : cardInfoResult :=
  {| CardID := 103;
     Fields_Front_Value := "5-2";
     Fields_Back_Value := "3";
     Buttons := [3] |}.

Definition m_back103 : model :=
  {| cards := [cardOf info103];
     currentCardIndex := 0;
     showBack := true;
     state := stateDisplayingCard;
     err := None;
     model_ankiConnectURL := ankiConnectURL;
     quitting := false;
     model_styles := newStyles |}.

(** A card without what the back of it shows. *)
Definition redact (c : Card) : Card :=
  {| ID := ID c; Front := Front c; Back := ""; EaseOptions := ∅ |}.

(** The frame of a shown card. *)
Definition card_frame (T : lipgloss.Terminal) (m : model) (body : string) : string :=
  lipgloss.JoinVertical T lipgloss.Center
    [lipgloss.Render T (title (model_styles m)) "Anki Study TUI";
     lipgloss.Render T (status (model_styles m))
       ("Card " +:+ itoa (currentCardIndex m + 1) +:+ "/" +:+ itoa (len (cards m)));
     lipgloss.Render T (card (model_styles m)) body].

(** What the frame of a shown card holds of card [c]: its front, then the
    prompt to reveal, or its back, the prompt to answer and one button per
    ease option in the order the map is ranged over. *)
Definition card_body (T : lipgloss.Terminal) (ρ : range_order) (m : model)
    (c : Card) : string :=
  if showBack m then
    buttons T m (ρ (EaseOptions c))
      ((lipgloss.Render T (front (model_styles m)) (Front c) +:+ nl +:+ nl
        +:+ lipgloss.Render T (back (model_styles m)) (Back c)) +:+ nl +:+ nl
       +:+ lipgloss.Render T (prompt (model_styles m)) "Press 1-4 to answer:")
  else
    lipgloss.Render T (front (model_styles m)) (Front c) +:+ nl +:+ nl
    +:+ lipgloss.Render T (prompt (model_styles m)) "Press ENTER to reveal back".

(** * Properties *)

(** ** Go basics *)

Lemma wrap_int_range z : in_int (wrap_int z).
Proof.
  unfold in_int, wrap_int, intMin, intMax.
  pose proof (Z.mod_pos_bound (z + 2 ^ 63) (2 ^ 64) ltac:(lia)). lia.
Qed.

Lemma incr_small i : in_int i → i < intMax → incr i = i + 1.
Proof.
  unfold in_int, incr, wrap_int, intMin, intMax. intros [Hlo Hhi] Hlt.
  rewrite Z.mod_small; lia.
Qed.

Lemma len_nonneg {A} (l : list A) : 0 ≤ len l.
Proof. unfold len. lia. Qed.

Lemma len_nil_iff {A} (l : list A) : len l = 0 ↔ l = [].
Proof. unfold len. destruct l; simpl; split; (done || lia). Qed.

Lemma index_Ret {A} (l : list A) i x :
  index l i = Ret x ↔ 0 ≤ i ∧ l !! Z.to_nat i = Some x.
Proof.
  unfold index, len. split.
  - destruct (0 <=? i) eqn:H0; simpl; [|done].
    destruct (i <? _); [|done]. destruct (l !! Z.to_nat i); [|done].
    intros [= ->]. split; [lia|done].
  - intros [H0 Hl]. pose proof (lookup_lt_Some _ _ _ Hl).
    rewrite (proj2 (Z.leb_le 0 i) H0). simpl.
    rewrite (proj2 (Z.ltb_lt i _)) by lia. by rewrite Hl.
Qed.

Lemma index_in_range {A} (l : list A) i :
  0 ≤ i < len l → ∃ x, index l i = Ret x.
Proof.
  intros [H0 Hl]. unfold len in Hl.
  destruct (lookup_lt_is_Some_2 l (Z.to_nat i) ltac:(lia)) as [x Hx].
  exists x. by apply index_Ret.
Qed.

Lemma index_Panic {A} (l : list A) i msg :
  index l i = Panic msg → i < 0 ∨ len l ≤ i.
Proof.
  intros H. destruct (decide (0 ≤ i < len l)) as [Hr|Hr]; [|lia].
  destruct (index_in_range l i Hr) as [x Hx]. congruence.
Qed.

(** ** Update, case by case *)

Lemma key_in_spec k ks : key_in k ks = true ↔ k ∈ ks.
Proof.
  unfold key_in. rewrite existsb_exists. split.
  - intros (x & Hx & Heq). apply String.eqb_eq in Heq as ->.
    by apply list_elem_of_In.
  - intros Hk. exists k. split; [by apply list_elem_of_In|apply String.eqb_refl].
Qed.

(** On the four ease keys [strconv.Atoi] cannot fail. *)
Lemma ease_key k :
  key_in k ["1"; "2"; "3"; "4"] = true →
  ∃ ease, 1 ≤ ease ≤ 4 ∧ Atoi k = (ease, None) ∧ k = itoa ease.
Proof.
  rewrite key_in_spec, !elem_of_cons, elem_of_nil.
  intros [->|[->|[->|[->|[]]]]];
    [exists 1|exists 2|exists 3|exists 4]; (split; [lia|by vm_compute]).
Qed.

Lemma ease_key_of ease :
  1 ≤ ease ≤ 4 →
  key_in (itoa ease) ["q"; "ctrl+c"] = false ∧
  key_in (itoa ease) ["enter"] = false ∧
  key_in (itoa ease) ["1"; "2"; "3"; "4"] = true ∧
  Atoi (itoa ease) = (ease, None).
Proof.
  intros H.
  assert (ease = 1 ∨ ease = 2 ∨ ease = 3 ∨ ease = 4) as [->|[->|[->| ->]]] by lia;
    by vm_compute.
Qed.

Lemma advance_cards m : cards (advance m) = cards m.
Proof. unfold advance. simpl. by destruct (_ <=? _). Qed.

Lemma advance_index m : currentCardIndex (advance m) = incr (currentCardIndex m).
Proof. unfold advance. simpl. by destruct (_ <=? _). Qed.

Lemma advance_showBack m : showBack (advance m) = false.
Proof. unfold advance. simpl. by destruct (_ <=? _). Qed.

Lemma advance_state m :
  state (advance m) =
  if len (cards m) <=? incr (currentCardIndex m) then stateNoCards else state m.
Proof. unfold advance. simpl. by destruct (_ <=? _). Qed.

Lemma Update_key m k m' c :
  Update m (KeyMsg k) = Ret (m', c) → key_effect m m' c.
Proof.
  unfold Update.
  destruct (key_in k ["q"; "ctrl+c"]); [intros [= <- <-]; constructor|].
  destruct (key_in k ["enter"]).
  { destruct (decide _) as [Hs|]; [|intros [= <- <-]; constructor].
    destruct (showBack m) eqn:Hb; intros [= <- <-]; by constructor. }
  destruct (key_in k ["1"; "2"; "3"; "4"]) eqn:Hk.
  { destruct (ease_key k Hk) as (ease & _ & -> & _).
    destruct (bool_decide _) eqn:Hs; simpl; [|intros [= <- <-]; constructor].
    apply bool_decide_eq_true in Hs.
    destruct (showBack m) eqn:Hb; [|intros [= <- <-]; constructor].
    destruct (_ <? _); [|intros [= <- <-]; constructor].
    destruct (index _ _) as [c0|] eqn:Hi; [|done].
    destruct (EaseOptions c0 !! ease) eqn:He; intros [= <- <-].
    - eapply key_answer; eauto.
    - constructor. }
  destruct (key_in k ["right"; "n"]); [|intros [= <- <-]; constructor].
  destruct (decide _); intros [= <- <-]; by constructor.
Qed.

(** A completed fetch delivers the cards or an error, a completed
    answer the acknowledgement or an error. *)
Lemma fetch_delivers P :
  (∃ cs, fetchDueCardsCmd P = cardsLoadedMsg cs) ∨
  (∃ e, fetchDueCardsCmd P = errMsg e).
Proof.
  unfold fetchDueCardsCmd.
  repeat (case_match; eauto).
Qed.

Lemma answer_delivers P cardID ease :
  answerCardCmd P cardID ease = cardAnsweredMsg cardID ease ∨
  (∃ e, answerCardCmd P cardID ease = errMsg e).
Proof. unfold answerCardCmd. case_match; eauto. Qed.

(** ** The invariant of the running program *)

Lemma Inv_start : Inv start.
Proof. left. by repeat split. Qed.

Lemma advance_loaded s pend :
  loaded_inv s → Forall is_answer pend →
  loaded_inv {| mdl := advance (mdl s); pending := pend |}.
Proof.
  intros (Hp & Hl & Hq & Hlen & Hi & Hd) Hpend.
  unfold loaded_inv. simpl.
  rewrite advance_cards, advance_index, advance_state.
  split_and!; try done.
  - by destruct (_ <=? _).
  - by destruct (_ <=? _).
  - apply wrap_int_range.
  - destruct (_ <=? _) eqn:Hle; [done|]. intros Hs.
    apply Z.leb_gt in Hle. specialize (Hd Hs).
    assert (incr (currentCardIndex (mdl s)) = currentCardIndex (mdl s) + 1) as Heq
      by (apply incr_small; [done|lia]).
    rewrite Heq in *. lia.
Qed.

Lemma Inv_step s s' : Inv s → step s s' → Inv s'.
Proof.
  intros HI Hstep. destruct Hstep as [k m' c HU|m' c HU|i t P msg m' c Hi Hrun Hfit HU].
  - apply Update_key in HU. destruct HI as [HL|HD].
    + destruct HL as (Hp & Hs & Hc & Hx & Hb & He). left.
      destruct HU; simpl; try congruence;
        rewrite ?app_nil_r; by repeat split.
    + destruct (HD) as (Hp & Hl & Hq & Hlen & Hx & Hd). right.
      destruct HU; simpl; rewrite ?app_nil_r.
      * unfold loaded_inv; simpl; by split_and!.
      * by destruct s.
      * unfold loaded_inv; simpl; by split_and!.
      * unfold loaded_inv; simpl; split_and!; try done.
        apply Forall_app. split; [done|].
        apply Forall_singleton. by eexists _, _.
      * by apply advance_loaded.
  - simpl in HU. injection HU as <- <-. simpl. rewrite app_nil_r.
    by destruct s.
  - destruct HI as [HL|HD].
    + destruct HL as (Hp & Hs & Hc & Hx & Hb & He). right.
      rewrite Hp in Hi |- *. destruct i as [|i]; [|done].
      injection Hi as <-. simpl in Hrun. injection Hrun as <-.
      destruct (fetch_delivers P) as [[cs Hm]|[e Hm]]; rewrite Hm in *; simpl in *.
      * destruct (len cs =? 0) eqn:Hz; injection HU as <- <-; simpl.
        -- unfold loaded_inv; simpl. rewrite Hc, Hx.
           split_and!; try done; by vm_compute.
        -- unfold loaded_inv; simpl. apply Z.eqb_neq in Hz.
           pose proof (len_nonneg cs).
           split_and!; try done. lia.
      * injection HU as <- <-. unfold loaded_inv; simpl. rewrite Hc, Hx.
        split_and!; try done; by vm_compute.
    + destruct (HD) as (Hp & Hl & Hq & Hlen & Hx & Hd). right.
      pose proof (Forall_lookup_1 _ _ _ _ Hp Hi) as (cardID & ease & ->).
      simpl in Hrun. injection Hrun as <-.
      assert (Forall is_answer (delete i (pending s))) as Hp'.
      { by apply Forall_delete. }
      destruct (answer_delivers P cardID ease) as [Hm|[e Hm]]; rewrite Hm in *;
        simpl in HU; injection HU as <- <-; simpl; rewrite app_nil_r.
      * by apply advance_loaded.
      * unfold loaded_inv; simpl; by split_and!.
Qed.

Lemma reachable_Inv s : reachable s → Inv s.
Proof.
  intros H. apply (rtc_ind_r (R:=step) (λ z, Inv z) start); [apply Inv_start| |done].
  intros y z _ Hstep HI. by eapply Inv_step.
Qed.

(** [Update] panics only where it indexes the cards, and not when the
    cursor of a displayed card is non-negative. *)
Lemma Update_returns m msg :
  (state m = stateDisplayingCard → 0 ≤ currentCardIndex m) →
  ∃ r, Update m msg = Ret r.
Proof.
  intros Hd. destruct msg as [k|cs|e|cardID ease|]; unfold Update; eauto.
  - destruct (key_in k ["q"; "ctrl+c"]); [eauto|].
    destruct (key_in k ["enter"]); [repeat case_match; eauto|].
    destruct (key_in k ["1"; "2"; "3"; "4"]) eqn:Hk; [|repeat case_match; eauto].
    destruct (ease_key k Hk) as (ease & _ & -> & _).
    destruct (bool_decide _) eqn:Hs; simpl; [|eauto].
    apply bool_decide_eq_true in Hs.
    destruct (showBack m); [|eauto].
    destruct (_ <? _) eqn:Hlt; [|eauto]. apply Z.ltb_lt in Hlt.
    destruct (index_in_range (cards m) (currentCardIndex m)) as [c ->]; [auto|].
    destruct (EaseOptions c !! ease); eauto.
  - destruct (len cs =? 0); eauto.
Qed.

Lemma reachable_Update_returns s msg :
  reachable s → ∃ r, Update (mdl s) msg = Ret r.
Proof.
  intros Hr. apply Update_returns. intros Hs.
  destruct (reachable_Inv s Hr) as [HL|HD].
  - destruct HL as (_ & Hl & _). congruence.
  - destruct HD as (_ & _ & _ & _ & _ & Hd). by apply Hd.
Qed.

(** Messages other than keys start nothing. *)
Lemma Update_completion m msg m' c :
  (∀ k, msg ≠ KeyMsg k) → Update m msg = Ret (m', c) → c = None.
Proof.
  intros Hk. destruct msg as [k|cs|e|cardID ease|]; simpl.
  - by destruct (Hk k).
  - destruct (len cs =? 0); by intros [= _ <-].
  - by intros [= _ <-].
  - by intros [= _ <-].
  - by intros [= _ <-].
Qed.

(** ** The cursor *)

Lemma step_cursor s s' :
  Inv s → step s s' →
  currentCardIndex (mdl s') = currentCardIndex (mdl s) ∨
  (currentCardIndex (mdl s') = incr (currentCardIndex (mdl s)) ∧
   showBack (mdl s') = false).
Proof.
  intros HI Hstep.
  destruct Hstep as [k m' c HU|m' c HU|i t P msg m' c Hi Hrun Hfit HU]; simpl.
  - apply Update_key in HU. destruct HU; simpl; auto.
    right. split; [apply advance_index|apply advance_showBack].
  - injection HU as <- <-. auto.
  - destruct HI as [HL|HD].
    + destruct HL as (Hp & Hs & Hc & Hx & Hb & He).
      rewrite Hp in Hi. destruct i as [|i]; [|done].
      injection Hi as <-. simpl in Hrun. injection Hrun as <-.
      destruct (fetch_delivers P) as [[cs Hm]|[e Hm]]; rewrite Hm in *; simpl in *.
      * destruct (len cs =? 0); injection HU as <- <-; simpl; auto.
      * injection HU as <- <-. auto.
    + destruct HD as (Hp & _).
      pose proof (Forall_lookup_1 _ _ _ _ Hp Hi) as (cardID & ease & ->).
      simpl in Hrun. injection Hrun as <-.
      destruct (answer_delivers P cardID ease) as [Hm|[e Hm]]; rewrite Hm in *;
        simpl in HU; injection HU as <- <-; simpl; auto.
      right. split; [apply advance_index|apply advance_showBack].
Qed.

Lemma Inv_in_int s : Inv s → in_int (currentCardIndex (mdl s)).
Proof.
  intros [HL|HD].
  - destruct HL as (_ & _ & _ & -> & _). by vm_compute.
  - by destruct HD as (_ & _ & _ & _ & Hx & _).
Qed.

(** C1, as the code has it: in every reachable state a displayed card
    lies under the cursor (the cursor is in [0, length) in phase
    Reviewing); during Loading the cursor is 0 and the list empty; so a
    cursor equal to the length is met in phase Exhausted, Loading or
    Failed only; and a transition leaves the cursor or moves it on by
    one with Go's [++], after which the back is hidden, and which does
    not decrease the cursor below the largest int. *)
Theorem cursor_discipline s s' :
  reachable s → step s s' →
  (state (mdl s) = stateDisplayingCard →
   0 ≤ currentCardIndex (mdl s) < len (cards (mdl s))) ∧
  (state (mdl s) = stateLoading →
   currentCardIndex (mdl s) = 0 ∧ cards (mdl s) = []) ∧
  (currentCardIndex (mdl s) = len (cards (mdl s)) →
   state (mdl s) = stateNoCards ∨ state (mdl s) = stateLoading ∨
   state (mdl s) = stateError) ∧
  (currentCardIndex (mdl s') = currentCardIndex (mdl s) ∨
   (currentCardIndex (mdl s') = incr (currentCardIndex (mdl s)) ∧
    showBack (mdl s') = false)) ∧
  (currentCardIndex (mdl s) < intMax →
   currentCardIndex (mdl s) ≤ currentCardIndex (mdl s')).
Proof.
  intros Hr Hstep. pose proof (reachable_Inv s Hr) as HI.
  assert (state (mdl s) = stateDisplayingCard →
          0 ≤ currentCardIndex (mdl s) < len (cards (mdl s))) as Hshown.
  { destruct HI as [HL|HD].
    - destruct HL as (_ & Hl & _). congruence.
    - by destruct HD as (_ & _ & _ & _ & _ & Hd). }
  split_and!.
  - done.
  - intros Hl. destruct HI as [HL|HD].
    + by destruct HL as (_ & _ & Hc & Hx & _).
    + by destruct HD as (_ & Hn & _).
  - intros Heq. destruct (state (mdl s)) eqn:Hs; auto.
    + specialize (Hshown eq_refl). lia.
    + destruct HI as [HL|HD].
      * destruct HL as (_ & Hl & _). congruence.
      * by destruct HD as (_ & _ & Hq & _).
  - by apply step_cursor.
  - intros Hlt. destruct (step_cursor s s' HI Hstep) as [->|[-> _]]; [lia|].
    rewrite incr_small; [lia|by apply Inv_in_int|done].
Qed.

(** ** A session with card 101 *)

Lemma step_key_to s k m' c s' :
  Update (mdl s) (KeyMsg k) = Ret (m', c) →
  s' = {| mdl := m'; pending := pending s ++ dispatch c |} →
  step s s'.
Proof. intros HU ->. by eapply step_key. Qed.

Lemma step_done_to s i t P msg m' c s' :
  pending s !! i = Some t →
  run P t = Some msg →
  fits msg →
  Update (mdl s) msg = Ret (m', c) →
  s' = {| mdl := m'; pending := delete i (pending s) ++ dispatch c |} →
  step s s'.
Proof. intros Hi Hrun Hfit HU ->. by eapply step_done. Qed.

Lemma reachable_step s s' : reachable s → step s s' → reachable s'.
Proof. intros Hr Hs. by eapply rtc_r. Qed.

Lemma start_reachable : reachable start.
Proof. apply rtc_refl. Qed.

Lemma step_load : step start {| mdl := m_front; pending := [] |}.
Proof.
  eapply (step_done_to start 0%nat fetchDueCards anki_up
            (cardsLoadedMsg [card101]) m_front None).
  - done.
  - by vm_compute.
  - by vm_compute.
  - by vm_compute.
  - done.
Qed.

Lemma step_reveal :
  step {| mdl := m_front; pending := [] |} {| mdl := m_back; pending := [] |}.
Proof. by eapply (step_key_to _ "enter" m_back None). Qed.

Lemma step_answer : step {| mdl := m_back; pending := [] |} s_answering.
Proof.
  by eapply (step_key_to _ "3" m_back (Some (answerCard 101 3))); vm_compute.
Qed.

Lemma step_answer_again : step s_answering s_answering_twice.
Proof.
  by eapply (step_key_to _ "3" m_back (Some (answerCard 101 3))); vm_compute.
Qed.

Lemma step_answer_fails : step s_answering_twice s_failed_pending.
Proof.
  eapply (step_done_to _ 0%nat (answerCard 101 3) anki_down
            (errMsg answer_failed) m_failed None).
  - done.
  - by vm_compute.
  - done.
  - by vm_compute.
  - done.
Qed.

Lemma step_stale_answer :
  step s_failed_pending {| mdl := m_over; pending := [] |}.
Proof.
  eapply (step_done_to _ 0%nat (answerCard 101 3) anki_up
            (cardAnsweredMsg 101 3) m_over None).
  - done.
  - by vm_compute.
  - done.
  - by vm_compute.
  - done.
Qed.

Lemma s_answering_reachable : reachable s_answering.
Proof.
  eapply reachable_step; [|apply step_answer].
  eapply reachable_step; [|apply step_reveal].
  eapply reachable_step; [|apply step_load].
  apply start_reachable.
Qed.

Lemma s_failed_pending_reachable : reachable s_failed_pending.
Proof.
  eapply reachable_step; [|apply step_answer_fails].
  eapply reachable_step; [|apply step_answer_again].
  apply s_answering_reachable.
Qed.

(** C1, against the sentence as specified: the initial state is reachable, its
    cursor equals the length of its (empty) card list, and its phase is
    Loading, not Exhausted. *)
Lemma cursor_at_length_while_loading :
  reachable start ∧
  currentCardIndex (mdl start) = len (cards (mdl start)) ∧
  state (mdl start) = stateLoading ∧
  state (mdl start) ≠ stateNoCards.
Proof. split; [apply start_reachable|]. by repeat split. Qed.

Lemma cursor_discipline_card101 :
  reachable s_answering ∧ step s_answering s_answering_twice ∧
  0 ≤ currentCardIndex m_back < len (cards m_back) ∧
  currentCardIndex m_back ≤ currentCardIndex (mdl s_answering_twice).
Proof.
  pose proof (cursor_discipline s_answering s_answering_twice
                s_answering_reachable step_answer_again) as (Hshown & _ & _ & _ & Hup).
  split; [apply s_answering_reachable|]. split; [apply step_answer_again|].
  split; [by apply Hshown|]. apply Hup. by vm_compute.
Defined.

(** ** Stale completions *)

(** The answered message advances whatever the phase is. *)
Lemma Update_answered m cardID ease :
  Update m (cardAnsweredMsg cardID ease) = Ret (advance m, None).
Proof. done. Qed.

(** C2, at its failing input: with card 101 revealed the key 3 is pressed
    twice; the first answer fails, so the phase is Failed; when the second
    answer succeeds its message moves the cursor from 0 to 1 and turns the
    phase into Exhausted. *)
Theorem stale_answer_changes_failed_state :
  reachable s_failed_pending ∧
  state (mdl s_failed_pending) = stateError ∧
  currentCardIndex (mdl s_failed_pending) = 0 ∧
  answerCardCmd anki_up 101 3 = cardAnsweredMsg 101 3 ∧
  Update (mdl s_failed_pending) (cardAnsweredMsg 101 3) = Ret (m_over, None) ∧
  state m_over = stateNoCards ∧
  currentCardIndex m_over = 1 ∧
  m_over ≠ mdl s_failed_pending ∧
  step s_failed_pending {| mdl := m_over; pending := [] |}.
Proof.
  split; [apply s_failed_pending_reachable|].
  split_and!; try by vm_compute.
  apply step_stale_answer.
Qed.

(** Two answers for the one card, both succeeding, carry the cursor
    beyond the length of the list. *)
Lemma cursor_beyond_length :
  reachable {| mdl := advance (advance m_back); pending := [] |} ∧
  currentCardIndex (advance (advance m_back)) = 2 ∧
  len (cards (advance (advance m_back))) = 1.
Proof.
  split; [|by vm_compute].
  apply (reachable_step {| mdl := advance m_back; pending := [answerCard 101 3] |}).
  - apply (reachable_step s_answering_twice).
    + apply (reachable_step s_answering); [apply s_answering_reachable|].
      apply step_answer_again.
    + by eapply (step_done_to _ 0%nat (answerCard 101 3) anki_up
                   (cardAnsweredMsg 101 3) (advance m_back) None); vm_compute.
  - by eapply (step_done_to _ 0%nat (answerCard 101 3) anki_up
                 (cardAnsweredMsg 101 3) (advance (advance m_back)) None); vm_compute.
Qed.

(** ** Outstanding tasks *)

(** C3, against the sentence as specified: with the answer for card 101 on its
    way, the key 3 is accepted again and starts a second answer call. *)
Lemma second_answer_while_pending :
  reachable s_answering ∧
  pending s_answering = [answerCard 101 3] ∧
  Update (mdl s_answering) (KeyMsg "3")
  = Ret (mdl s_answering, Some (answerCard 101 3)) ∧
  dispatch (Some (answerCard 101 3)) = [answerCard 101 3] ∧
  step s_answering s_answering_twice ∧
  pending s_answering_twice = [answerCard 101 3; answerCard 101 3].
Proof.
  split; [apply s_answering_reachable|].
  split_and!; try by vm_compute.
  apply step_answer_again.
Qed.

(** C3, as the code has it: the program keeps no record of pending tasks.
    No message ever starts a fetch; while the fetch of [Init] is on its way
    it is the only task and no key starts another; a completion message
    starts nothing; and a key starts a task only in phase Reviewing with
    the back revealed, where it is an answer for the card under the cursor
    with one of its legal eases, and leaves the model as it is. *)
Theorem dispatch_discipline s msg m' c :
  reachable s → Update (mdl s) msg = Ret (m', c) →
  c ≠ Some fetchDueCards ∧
  (fetchDueCards ∈ pending s → pending s = [fetchDueCards] ∧ dispatch c = []) ∧
  ((∀ k, msg ≠ KeyMsg k) → dispatch c = []) ∧
  (state (mdl s) ≠ stateDisplayingCard ∨ showBack (mdl s) = false →
   dispatch c = []) ∧
  (dispatch c ≠ [] →
   ∃ card ease,
     state (mdl s) = stateDisplayingCard ∧ showBack (mdl s) = true ∧
     index (cards (mdl s)) (currentCardIndex (mdl s)) = Ret card ∧
     is_Some (EaseOptions card !! ease) ∧
     c = Some (answerCard (ID card) ease) ∧ m' = mdl s).
Proof.
  intros Hr HU. pose proof (reachable_Inv s Hr) as HI.
  assert (dispatch c ≠ [] →
          ∃ card ease,
            state (mdl s) = stateDisplayingCard ∧ showBack (mdl s) = true ∧
            index (cards (mdl s)) (currentCardIndex (mdl s)) = Ret card ∧
            is_Some (EaseOptions card !! ease) ∧
            c = Some (answerCard (ID card) ease) ∧ m' = mdl s) as Hkey.
  { destruct msg as [k|cs|e|cardID ease|].
    - apply Update_key in HU. destruct HU; try done.
      intros _. by eexists _, _.
    - apply Update_completion in HU as ->; done.
    - apply Update_completion in HU as ->; done.
    - apply Update_completion in HU as ->; done.
    - apply Update_completion in HU as ->; done. }
  assert (state (mdl s) ≠ stateDisplayingCard ∨ showBack (mdl s) = false →
          dispatch c = []) as Hquiet.
  { intros Hq. destruct (dispatch c) eqn:Hd; [done|].
    destruct Hkey as (? & ? & Hs & Hb & _); [done|].
    destruct Hq; congruence. }
  split_and!.
  - intros ->. destruct Hkey as (? & ? & _ & _ & _ & _ & ? & _); done.
  - intros Hin. destruct HI as [HL|HD].
    + destruct HL as (Hp & Hs & _). split; [done|].
      apply Hquiet. left. congruence.
    + destruct HD as (Hp & _). rewrite Forall_forall in Hp.
      destruct (Hp _ Hin) as (? & ? & ?). done.
  - intros Hk. by rewrite (Update_completion _ _ _ _ Hk HU).
  - done.
  - done.
Qed.

Lemma dispatch_discipline_card101 :
  reachable s_answering ∧
  Update (mdl s_answering) (KeyMsg "3") = Ret (m_back, Some (answerCard 101 3)) ∧
  Some (answerCard 101 3) ≠ Some fetchDueCards ∧
  ∃ card ease,
    index (cards m_back) (currentCardIndex m_back) = Ret card ∧
    Some (answerCard 101 3) = Some (answerCard (ID card) ease).
Proof.
  assert (Update (mdl s_answering) (KeyMsg "3")
          = Ret (m_back, Some (answerCard 101 3))) as HU by (by vm_compute).
  pose proof (dispatch_discipline s_answering (KeyMsg "3") m_back
                (Some (answerCard 101 3)) s_answering_reachable HU)
    as (Hnf & _ & _ & _ & Hkey).
  split; [apply s_answering_reachable|]. split; [exact HU|]. split; [exact Hnf|].
  destruct Hkey as (card & ease & _ & _ & Hi & _ & Hc & _); [done|].
  by exists card, ease.
Defined.

(** ** The remote client *)

Lemma cause_marshal e :
  cause_of (Errorf_w "failed to marshal request: " e "") = Some Unencodable.
Proof. by vm_compute. Qed.

Lemma cause_connect e post :
  cause_of (Errorf_w ("failed to connect to AnkiConnect at " +:+ ankiConnectURL +:+ ": ")
              e post) = Some Unreachable.
Proof. by vm_compute. Qed.

Lemma cause_read e :
  cause_of (Errorf_w "failed to read response body: " e "") = Some Unreadable.
Proof. by vm_compute. Qed.

Lemma cause_unmarshal e :
  cause_of (Errorf_w "failed to unmarshal AnkiConnect response: " e "")
  = Some Undecodable.
Proof. by vm_compute. Qed.

Lemma cause_reported text :
  cause_of (errorString ("AnkiConnect error: " +:+ text)) = Some Reported.
Proof. by vm_compute. Qed.

(** C4, against the sentence as specified: the platform answers with status
    500 and a body that decodes with a null error, and the call returns
    the result as a success. *)
Lemma status_500_is_returned_as_success :
  Marshal_request anki_500 (mkRequest "findCards" 6 (findCardsParams "is:due"))
  = inl "findCards" ∧
  Post anki_500 ankiConnectURL "application/json" "findCards"
  = inl {| StatusCode := 500; Body := inl "500" |} ∧
  Unmarshal_response anki_500 "500" = inl {| Result := JArr []; Error_ := JNull |} ∧
  ¬ (200 ≤ 500 < 300) ∧
  postAnkiConnect anki_500 "findCards" 6 (findCardsParams "is:due") = inl (JArr []).
Proof. split_and!; try done. lia. Qed.

(** C4, as the code has it: a request that does not encode, an endpoint
    that cannot be reached, a body that cannot be read, a body that does
    not decode and a non-null [error] field each make the call fail, with
    an error whose text tells the five causes apart and which wraps the
    library's error; the status of the response is not looked at, so a
    body that decodes with a null [error] is a success under any status. *)
Theorem postAnkiConnect_failures P action version params :
  (∀ e, Marshal_request P (mkRequest action version params) = inr e →
        ∃ e', postAnkiConnect P action version params = inr e' ∧
              Unwrap e' = Some e ∧ cause_of e' = Some Unencodable) ∧
  (∀ reqBody,
     Marshal_request P (mkRequest action version params) = inl reqBody →
     (∀ e, Post P ankiConnectURL "application/json" reqBody = inr e →
           ∃ e', postAnkiConnect P action version params = inr e' ∧
                 Unwrap e' = Some e ∧ cause_of e' = Some Unreachable) ∧
     (∀ resp, Post P ankiConnectURL "application/json" reqBody = inl resp →
        (∀ e, Body resp = inr e →
              ∃ e', postAnkiConnect P action version params = inr e' ∧
                    Unwrap e' = Some e ∧ cause_of e' = Some Unreadable) ∧
        (∀ body, Body resp = inl body →
           (∀ e, Unmarshal_response P body = inr e →
                 ∃ e', postAnkiConnect P action version params = inr e' ∧
                       Unwrap e' = Some e ∧ cause_of e' = Some Undecodable) ∧
           (∀ ankiResp, Unmarshal_response P body = inl ankiResp →
              (Error_ ankiResp ≠ JNull →
               ∃ e', postAnkiConnect P action version params = inr e' ∧
                     Error e' = "AnkiConnect error: " +:+ fmt_v P (Error_ ankiResp) ∧
                     cause_of e' = Some Reported) ∧
              (Error_ ankiResp = JNull →
               postAnkiConnect P action version params = inl (Result ankiResp)))))).
Proof.
  unfold postAnkiConnect. split.
  { intros e ->. eexists. split; [done|]. split; [done|apply cause_marshal]. }
  intros reqBody ->. split.
  { intros e ->. eexists. split; [done|]. split; [done|apply cause_connect]. }
  intros resp ->. split.
  { intros e ->. eexists. split; [done|]. split; [done|apply cause_read]. }
  intros body ->. split.
  { intros e ->. eexists. split; [done|]. split; [done|apply cause_unmarshal]. }
  intros ankiResp ->. split.
  - intros Hne. destruct (Error_ ankiResp) eqn:He; [done|..];
      (eexists; split; [done|]; split; [done|apply cause_reported]).
  - by intros ->.
Qed.

Lemma postAnkiConnect_failures_refused :
  ∃ e', postAnkiConnect anki_down "findCards" 6 (findCardsParams "is:due") = inr e' ∧
        Unwrap e' = Some refused ∧ cause_of e' = Some Unreachable.
Proof.
  destruct (postAnkiConnect_failures anki_down "findCards" 6 (findCardsParams "is:due"))
    as [_ H].
  destruct (H "findCards" eq_refl) as [Hpost _].
  exact (Hpost refused eq_refl).
Defined.

(** ** The view *)

Lemma ascending_legal : legal_order ascending.
Proof. intros m. unfold ascending. apply merge_sort_Permutation. Qed.

Lemma descending_legal : legal_order descending.
Proof.
  intros m. unfold descending. rewrite reverse_Permutation. apply ascending_legal.
Qed.

(** C5, at its failing input: card 101 with its back revealed is a
    reachable state; the loop over the map of ease options may visit it by
    rising or by falling ease, both orders being legal for [range]; the two
    frames differ, and the second lists the controls from 4 down to 1. *)
Theorem controls_follow_the_range_order :
  reachable {| mdl := m_back; pending := [] |} ∧
  legal_order ascending ∧ legal_order descending ∧
  View plain ascending m_back
  = Ret (frame101 " 1: Again 2: Hard 3: Good 4: Easy") ∧
  View plain descending m_back
  = Ret (frame101 " 4: Easy 3: Good 2: Hard 1: Again") ∧
  View plain ascending m_back ≠ View plain descending m_back ∧
  (descending (EaseOptions card101)).*1 = [4; 3; 2; 1].
Proof.
  split.
  { eapply reachable_step; [|apply step_reveal].
    eapply reachable_step; [|apply step_load]. apply start_reachable. }
  split; [apply ascending_legal|]. split; [apply descending_legal|].
  split_and!; by vm_compute.
Qed.

(** C10, against the sentence as specified: on this model the guard of the
    Reviewing branch holds (the list is not empty and -1 is below its
    length) and the index expression panics. *)
Lemma View_panics_on_negative_cursor :
  state m_negative = stateDisplayingCard ∧
  currentCardIndex m_negative = -1 ∧
  len (cards m_negative) = 1 ∧
  View plain ascending m_negative = Panic "index out of range".
Proof. split_and!; by vm_compute. Qed.

Lemma View_guard_false T ρ m :
  quitting m = false → state m = stateDisplayingCard →
  len (cards m) ≤ currentCardIndex m →
  View T ρ m = Ret (bare T m).
Proof.
  intros Hq Hs Hge. unfold View, bare. rewrite Hq, Hs.
  rewrite (proj2 (Z.ltb_ge (currentCardIndex m) (len (cards m)))) by done.
  by rewrite andb_false_r.
Qed.

Lemma View_returns_iff T ρ m :
  (∃ frame, View T ρ m = Ret frame) ↔ ¬ negative_cursor_shown m.
Proof.
  unfold negative_cursor_shown, View.
  destruct (quitting m) eqn:Hq.
  { split; [intros _ (? & _); done|eauto]. }
  destruct (state m) eqn:Hs; try (split; [intros _ (_ & ? & _); done|eauto]).
  destruct (0 <? len (cards m)) eqn:Hpos; simpl.
  2:{ apply Z.ltb_ge in Hpos. split; [intros _ (_ & _ & _ & ?); lia|eauto]. }
  apply Z.ltb_lt in Hpos.
  destruct (currentCardIndex m <? len (cards m)) eqn:Hlt.
  2:{ apply Z.ltb_ge in Hlt. split; [intros _ (_ & _ & ? & _); lia|eauto]. }
  apply Z.ltb_lt in Hlt.
  destruct (index (cards m) (currentCardIndex m)) as [c|msg] eqn:Hi.
  - apply index_Ret in Hi as [H0 _].
    split; [intros _ (_ & _ & ? & _); lia|eauto].
  - apply index_Panic in Hi. split; [intros [? ?]; done|].
    intros Hn. destruct Hn. split_and!; try done. lia.
Qed.

(** C10, as the code has it: [View] returns a frame on every model but
    those of phase Reviewing with a negative cursor on a non-empty list
    (there the guard holds and the index expression panics), so on every
    model with a non-negative cursor and on every reachable state; in
    phase Reviewing with the cursor at or beyond the length it returns
    the bare frame, which holds nothing of any card. *)
Theorem View_total_from_zero T ρ m :
  ((∃ frame, View T ρ m = Ret frame) ↔ ¬ negative_cursor_shown m) ∧
  (0 ≤ currentCardIndex m → ∃ frame, View T ρ m = Ret frame) ∧
  (quitting m = false → state m = stateDisplayingCard →
   len (cards m) ≤ currentCardIndex m → View T ρ m = Ret (bare T m)) ∧
  (∀ s, reachable s → m = mdl s → ∃ frame, View T ρ m = Ret frame).
Proof.
  split_and!.
  - apply View_returns_iff.
  - intros H0. apply View_returns_iff. intros (_ & _ & ? & _). lia.
  - apply View_guard_false.
  - intros s Hr ->. apply View_returns_iff. intros (_ & Hs & Hneg & _).
    destruct (reachable_Inv s Hr) as [HL|HD].
    + destruct HL as (_ & Hl & _). congruence.
    + destruct HD as (_ & _ & _ & _ & _ & Hd). specialize (Hd Hs). lia.
Qed.

Lemma View_total_from_zero_m_over :
  (∃ frame, View plain descending (set_state stateDisplayingCard m_over) = Ret frame) ∧
  View plain descending (set_state stateDisplayingCard m_over)
  = Ret (bare plain (set_state stateDisplayingCard m_over)).
Proof.
  destruct (View_total_from_zero plain descending (set_state stateDisplayingCard m_over))
    as (_ & Hret & Hbare & _).
  split; [apply Hret; by vm_compute|].
  apply Hbare; by vm_compute.
Defined.

(** ** Ease labels *)

Lemma defaultEaseLabels_lookup N :
  defaultEaseLabels !! N =
  if N =? 1 then Some "Again"
  else if N =? 2 then Some "Hard"
  else if N =? 3 then Some "Good"
  else if N =? 4 then Some "Easy"
  else None.
Proof.
  unfold defaultEaseLabels.
  destruct (Z.eqb_spec N 1) as [->|?]; [done|].
  destruct (Z.eqb_spec N 2) as [->|?]; [done|].
  destruct (Z.eqb_spec N 3) as [->|?]; [done|].
  destruct (Z.eqb_spec N 4) as [->|?]; [done|].
  rewrite !lookup_insert_ne by lia. apply lookup_empty.
Qed.

(** One round of the loop stores the specified label under the code. *)
Lemma easeOptions_round (easeOptions : gmap Z string) easeVal :
  match defaultEaseLabels !! easeVal with
  | Some label => <[easeVal := label]> easeOptions
  | None => <[easeVal := "Ease " +:+ itoa easeVal]> easeOptions
  end = <[easeVal := ease_label easeVal]> easeOptions.
Proof.
  rewrite defaultEaseLabels_lookup. unfold ease_label.
  by repeat destruct (_ =? _).
Qed.

Lemma easeOptionsOf_snoc Buttons easeVal :
  easeOptionsOf (Buttons ++ [easeVal])
  = <[easeVal := ease_label easeVal]> (easeOptionsOf Buttons).
Proof.
  unfold easeOptionsOf. rewrite foldl_app. simpl. apply easeOptions_round.
Qed.

Lemma easeOptionsOf_lookup Buttons N :
  N ∈ Buttons → easeOptionsOf Buttons !! N = Some (ease_label N).
Proof.
  induction Buttons as [|easeVal Buttons IH] using rev_ind.
  - by intros ?%elem_of_nil.
  - rewrite easeOptionsOf_snoc. intros Hin.
    destruct (decide (easeVal = N)) as [->|Hne].
    + by rewrite lookup_insert_eq.
    + rewrite lookup_insert_ne by done. apply IH.
      apply elem_of_app in Hin as [?|Hin]; [done|].
      apply list_elem_of_singleton in Hin. congruence.
Qed.

Lemma easeOptionsOf_dom Buttons N :
  is_Some (easeOptionsOf Buttons !! N) ↔ N ∈ Buttons.
Proof.
  split; [|intros H; rewrite easeOptionsOf_lookup; eauto].
  induction Buttons as [|easeVal Buttons IH] using rev_ind.
  - unfold easeOptionsOf. simpl. rewrite lookup_empty. by intros [? ?].
  - rewrite easeOptionsOf_snoc. destruct (decide (easeVal = N)) as [->|Hne].
    + intros _. apply elem_of_app. right. by apply list_elem_of_singleton.
    + rewrite lookup_insert_ne by done. intros H. apply elem_of_app. auto.
Qed.

(** C6: every card of a loaded message is built from a record that
    parsed, and for every button code N of that record the card's label
    for N is Again, Hard, Good, Easy for 1, 2, 3, 4 and "Ease N"
    otherwise; codes that are not in the record have no label. *)
Theorem ease_labels P cs c :
  fetchDueCardsCmd P = cardsLoadedMsg cs → c ∈ cs →
  ∃ info ci,
    parseInfo P info = Some ci ∧ c = cardOf ci ∧
    (∀ N, N ∈ Buttons ci → EaseOptions c !! N = Some (ease_label N)) ∧
    (∀ N, N ∉ Buttons ci → EaseOptions c !! N = None).
Proof.
  unfold fetchDueCardsCmd. intros Hmsg Hin.
  destruct (postAnkiConnect P "findCards" _ _) as [[| | | |ids|]|]; try done.
  destruct (len _ =? 0).
  { injection Hmsg as <-. by apply elem_of_nil in Hin. }
  destruct (postAnkiConnect P "cardsInfo" _ _) as [[| | | |infos|]|]; try done.
  injection Hmsg as <-.
  apply list_elem_of_fmap in Hin as (ci & -> & Hci).
  apply list_elem_of_omap in Hci as (info & _ & Hparse).
  exists info, ci. split_and!; try done.
  - intros N HN. by apply easeOptionsOf_lookup.
  - intros N HN. simpl. apply eq_None_not_Some. by rewrite easeOptionsOf_dom.
Qed.

Lemma ease_labels_card101 :
  ∃ info ci,
    parseInfo anki_up info = Some ci ∧ card101 = cardOf ci ∧
    (∀ N, N ∈ Buttons ci → EaseOptions card101 !! N = Some (ease_label N)) ∧
    (∀ N, N ∉ Buttons ci → EaseOptions card101 !! N = None).
Proof.
  apply (ease_labels anki_up [card101] card101).
  - by vm_compute.
  - apply list_elem_of_singleton. reflexivity.
Defined.

(** ** Failures of the fetch *)

Lemma fetch_call_failed_msg P e pre :
  fetch_call_failed P e pre → fetchDueCardsCmd P = errMsg (Errorf_w pre e "").
Proof.
  unfold fetchDueCardsCmd. intros [Hfind|ids Hfind Hids Hinfo].
  - by rewrite Hfind.
  - rewrite Hfind.
    destruct (len (omap floatID ids) =? 0) eqn:Hz.
    { apply Z.eqb_eq, len_nil_iff in Hz. done. }
    by rewrite Hinfo.
Qed.

(** C7: when a network call of the fetch fails with [e] (the query for
    the due identifiers, or the batched call for their details), the
    fetch delivers an error message whose error wraps [e] under the name
    of the failed call; handled in any reachable state in which the fetch
    is on its way, the message leaves phase Failed, that error in the
    state as it came and the card list empty. *)
Theorem fetch_failure_fails_the_session s P e pre :
  reachable s → fetchDueCards ∈ pending s → fetch_call_failed P e pre →
  ∃ e' m',
    fetchDueCardsCmd P = errMsg e' ∧
    Unwrap e' = Some e ∧ Error e' = pre +:+ Error e +:+ "" ∧
    Update (mdl s) (errMsg e') = Ret (m', None) ∧
    state m' = stateError ∧ err m' = Some e' ∧ cards m' = [].
Proof.
  intros Hr Hin Hfail.
  exists (Errorf_w pre e ""), (set_state stateError (set_err (Errorf_w pre e "") (mdl s))).
  split; [by apply fetch_call_failed_msg|]. split_and!; try done.
  simpl. destruct (reachable_Inv s Hr) as [HL|HD].
  - by destruct HL as (_ & _ & Hc & _).
  - destruct HD as (Hp & _). rewrite Forall_forall in Hp.
    destruct (Hp _ Hin) as (? & ? & ?). done.
Qed.

Lemma fetch_failure_refused :
  ∃ e' m',
    fetchDueCardsCmd anki_down = errMsg e' ∧
    Unwrap e' =
      Some (Errorf_w ("failed to connect to AnkiConnect at " +:+ ankiConnectURL +:+ ": ")
              refused
              (nl +:+ "Ensure Anki is running and AnkiConnect add-on is installed.")) ∧
    Error e' =
      "failed to find due cards: " +:+
      Error (Errorf_w ("failed to connect to AnkiConnect at " +:+ ankiConnectURL +:+ ": ")
               refused
               (nl +:+ "Ensure Anki is running and AnkiConnect add-on is installed."))
      +:+ "" ∧
    Update (mdl start) (errMsg e') = Ret (m', None) ∧
    state m' = stateError ∧ err m' = Some e' ∧ cards m' = [].
Proof.
  apply (fetch_failure_fails_the_session start anki_down).
  - apply start_reachable.
  - apply list_elem_of_singleton. reflexivity.
  - apply find_failed. by vm_compute.
Defined.

(** ** Keys on a revealed card *)

(** C8: in phase Reviewing with the back revealed, an ease key 1-4 that
    is not among the ease options of the card under the cursor leaves the
    model as it is and starts no command. *)
Theorem illegal_ease_is_ignored m c ease :
  state m = stateDisplayingCard → showBack m = true →
  1 ≤ ease ≤ 4 →
  index (cards m) (currentCardIndex m) = Ret c →
  EaseOptions c !! ease = None →
  Update m (KeyMsg (itoa ease)) = Ret (m, None).
Proof.
  intros Hs Hb Hease Hc Hnone.
  destruct (ease_key_of ease Hease) as (Hq & He & Hk & Ha).
  unfold Update. rewrite Hq, He, Hk, Ha, Hs, Hb, Hc, Hnone. simpl.
  by destruct (_ <? _).
Qed.

Lemma illegal_ease_is_ignored_card102 :
  Update m_back102 (KeyMsg "2") = Ret (m_back102, None).
Proof.
  apply (illegal_ease_is_ignored m_back102 (cardOf info102) 2).
  - reflexivity.
  - reflexivity.
  - lia.
  - by vm_compute.
  - by vm_compute.
Defined.

(** The reveal key applied twice gives the state it gives applied once,
    and the second application starts no command. *)
Lemma reveal_twice_same_state m :
  state m = stateDisplayingCard →
  ∃ m1,
    Update m (KeyMsg "enter") = Ret (m1, None) ∧
    Update m1 (KeyMsg "enter") = Ret (m1, None) ∧
    showBack m1 = true.
Proof.
  intros Hs. unfold Update. simpl.
  destruct (decide _) as [_|]; [|done].
  destruct (showBack m) eqn:Hb.
  - exists m. rewrite Hb. by destruct (decide _).
  - exists (set_showBack true m). simpl. by destruct (decide _).
Qed.

(** C9, at its failing input: in every model of phase Reviewing two
    reveals give the state one reveal gives and the second starts no
    command; but the frame is not a function of that state.  With card 101
    shown (a reachable state), one reveal and two reveals both end in the
    state with the back revealed, and rendering that state ranges over the
    map of ease options anew each time: under the two legal orders the
    frame after one reveal and the frame after two reveals differ. *)
Theorem reveal_twice_frames_differ :
  (∀ m, state m = stateDisplayingCard →
        ∃ m1, Update m (KeyMsg "enter") = Ret (m1, None) ∧
              Update m1 (KeyMsg "enter") = Ret (m1, None) ∧
              showBack m1 = true) ∧
  reachable {| mdl := m_front; pending := [] |} ∧
  Update m_front (KeyMsg "enter") = Ret (m_back, None) ∧
  Update m_back (KeyMsg "enter") = Ret (m_back, None) ∧
  legal_order ascending ∧ legal_order descending ∧
  View plain ascending m_back
  = Ret (frame101 " 1: Again 2: Hard 3: Good 4: Easy") ∧
  View plain descending m_back
  = Ret (frame101 " 4: Easy 3: Good 2: Hard 1: Again") ∧
  View plain ascending m_back ≠ View plain descending m_back.
Proof.
  split; [apply reveal_twice_same_state|].
  split.
  { eapply reachable_step; [apply start_reachable|apply step_load]. }
  split; [done|]. split; [done|].
  split; [apply ascending_legal|]. split; [apply descending_legal|].
  split_and!; by vm_compute.
Qed.

(** * Further properties of the program *)

(** ** Keys *)

(** X1: outside phase Reviewing a key does nothing, but for the quit
    keys, which set [quitting] and ask the runtime to stop; so Loading,
    Exhausted and Failed are left by no key. *)
Theorem keys_outside_review m k :
  state m ≠ stateDisplayingCard →
  ((k ∈ ["q"; "ctrl+c"]) ∧
   Update m (KeyMsg k) = Ret (set_quitting true m, Some Quit)) ∨
  ((k ∉ ["q"; "ctrl+c"]) ∧ Update m (KeyMsg k) = Ret (m, None)).
Proof.
  intros Hs. unfold Update.
  destruct (key_in k ["q"; "ctrl+c"]) eqn:Hq.
  { left. by rewrite <- key_in_spec. }
  right. split.
  { rewrite <- key_in_spec. by rewrite Hq. }
  destruct (key_in k ["enter"]).
  { by destruct (decide _). }
  rewrite bool_decide_eq_false_2 by done.
  destruct (key_in k ["1"; "2"; "3"; "4"]); [done|].
  destruct (key_in k ["right"; "n"]); [|done].
  by destruct (decide _).
Qed.

Lemma keys_outside_review_failed :
  Update m_failed (KeyMsg "n") = Ret (m_failed, None) ∧
  Update m_failed (KeyMsg "q") = Ret (set_quitting true m_failed, Some Quit).
Proof.
  assert (state m_failed ≠ stateDisplayingCard) as Hs by done.
  split.
  - destruct (keys_outside_review m_failed "n" Hs) as [[Hk _]|[_ H]]; [|exact H].
    apply key_in_spec in Hk. discriminate Hk.
  - destruct (keys_outside_review m_failed "q" Hs) as [[_ H]|[Hk _]]; [exact H|].
    destruct Hk. by apply key_in_spec.
Defined.

(** X2: a key never fails the session: whatever the model and the key,
    the error and the card list stay as they are, and the phase stays or
    goes from Reviewing to Exhausted; the branch that stores "invalid ease
    input" is never taken. *)
Theorem keys_never_fail m k m' c :
  Update m (KeyMsg k) = Ret (m', c) →
  err m' = err m ∧ cards m' = cards m ∧
  (state m' = state m ∨
   (state m = stateDisplayingCard ∧ state m' = stateNoCards)).
Proof.
  intros HU. apply Update_key in HU.
  destruct HU as [| | | |Hs]; simpl; auto.
  rewrite advance_cards, advance_state. unfold advance. simpl.
  split; [by destruct (_ <=? _)|]. split; [done|].
  destruct (_ <=? _); auto.
Qed.

Lemma keys_never_fail_card101 :
  err m_back = err m_back ∧ cards m_back = cards m_back ∧
  (state m_back = state m_back ∨
   (state m_back = stateDisplayingCard ∧ state m_back = stateNoCards)).
Proof.
  apply (keys_never_fail m_back "3" m_back (Some (answerCard 101 3))).
  by vm_compute.
Defined.

(** X3: [Update] panics in one situation only: an ease key in phase
    Reviewing with the back revealed and a negative cursor, where the
    guard [currentCardIndex < len(cards)] holds and the index expression
    is out of range. *)
Theorem Update_panics_iff m msg :
  (∃ e, Update m msg = Panic e) ↔
  ∃ k, msg = KeyMsg k ∧ k ∈ ["1"; "2"; "3"; "4"] ∧
       state m = stateDisplayingCard ∧ showBack m = true ∧
       currentCardIndex m < 0.
Proof.
  split.
  - intros [e HU]. destruct msg as [k|cs|e0|cardID ease|]; try done.
    2:{ simpl in HU. by destruct (len cs =? 0). }
    exists k. split; [done|]. revert HU. unfold Update.
    destruct (key_in k ["q"; "ctrl+c"]); [done|].
    destruct (key_in k ["enter"]); [by repeat case_match|].
    destruct (key_in k ["1"; "2"; "3"; "4"]) eqn:Hk; [|by repeat case_match].
    destruct (ease_key k Hk) as (ease & _ & -> & _).
    destruct (bool_decide _) eqn:Hs; simpl; [|done].
    apply bool_decide_eq_true in Hs.
    destruct (showBack m); [|done].
    destruct (_ <? _) eqn:Hlt; [|done]. apply Z.ltb_lt in Hlt.
    destruct (index _ _) as [c|msg] eqn:Hi; [by destruct (EaseOptions c !! ease)|].
    intros _. apply index_Panic in Hi. apply key_in_spec in Hk.
    split_and!; try done. lia.
  - intros (k & -> & Hk & Hs & Hb & Hneg).
    apply key_in_spec in Hk. destruct (ease_key k Hk) as (ease & Hease & Ha & ->).
    destruct (ease_key_of ease Hease) as (Hq & He & _ & _).
    unfold Update. rewrite Hq, He, Hk, Ha, Hs, Hb. simpl.
    pose proof (len_nonneg (cards m)).
    rewrite (proj2 (Z.ltb_lt _ _)) by lia.
    unfold index. rewrite (proj2 (Z.leb_gt _ _)) by lia. simpl. eauto.
Qed.

(** ** Skipping and answering *)

Lemma skip_key m k :
  k ∈ ["right"; "n"] → state m = stateDisplayingCard →
  Update m (KeyMsg k) = Ret (advance m, None).
Proof.
  rewrite !elem_of_cons, elem_of_nil. intros [->|[->|[]]] Hs;
    unfold Update; simpl; by destruct (decide _).
Qed.

Lemma advance_shown m :
  state m = stateDisplayingCard →
  0 ≤ currentCardIndex m < len (cards m) → len (cards m) ≤ intMax →
  cards (advance m) = cards m ∧
  currentCardIndex (advance m) = currentCardIndex m + 1 ∧
  showBack (advance m) = false ∧
  err (advance m) = err m ∧
  state (advance m) =
    if currentCardIndex m + 1 =? len (cards m) then stateNoCards
    else stateDisplayingCard.
Proof.
  intros Hs Hi Hlen.
  assert (incr (currentCardIndex m) = currentCardIndex m + 1) as Hincr.
  { apply incr_small; [|lia]. unfold in_int, intMin, intMax in *. lia. }
  rewrite advance_cards, advance_index, advance_showBack, advance_state, Hincr, Hs.
  split_and!; try done.
  - unfold advance. simpl. by destruct (_ <=? _).
  - destruct (Z.eqb_spec (currentCardIndex m + 1) (len (cards m))) as [Heq|Hne].
    + by rewrite (proj2 (Z.leb_le _ _)) by lia.
    + by rewrite (proj2 (Z.leb_gt _ _)) by lia.
Qed.

Lemma feed_cons m msg msgs :
  feed m (msg :: msgs) =
  match Update m msg with
  | Panic e => Panic e
  | Ret (m', c) =>
      match feed m' msgs with
      | Panic e => Panic e
      | Ret (m'', cs) => Ret (m'', (dispatch c ++ cs)%list)
      end
  end.
Proof. done. Qed.

(** X4: from a shown card, presses of the skip keys, the right arrow
    and n in any mix and as many as there are cards left at most, move the
    cursor on by their number, hide the back, start nothing and leave the
    list as it is; the phase is Exhausted exactly when the cursor has
    arrived at the length. *)
Theorem skip_through (ks : list string) : ∀ m,
  Forall (λ k, k ∈ ["right"; "n"]) ks →
  state m = stateDisplayingCard →
  0 ≤ currentCardIndex m →
  ks ≠ [] →
  currentCardIndex m + len ks ≤ len (cards m) →
  len (cards m) ≤ intMax →
  ∃ m',
    feed m (KeyMsg <$> ks) = Ret (m', []) ∧
    cards m' = cards m ∧
    currentCardIndex m' = currentCardIndex m + len ks ∧
    showBack m' = false ∧
    state m' =
      if currentCardIndex m' =? len (cards m) then stateNoCards
      else stateDisplayingCard.
Proof.
  induction ks as [|k ks IH]; intros m Hks Hs H0 Hne Hle Hlen; [done|].
  apply Forall_cons in Hks as [Hk Hks].
  assert (len (k :: ks) = 1 + len ks) as Hcons by (unfold len; simpl length; lia).
  pose proof (len_nonneg ks) as Hnn. rewrite Hcons in *.
  destruct (advance_shown m Hs ltac:(lia) Hlen) as (Hc & Hi & Hb & _ & Hst).
  rewrite fmap_cons, feed_cons, (skip_key m k Hk Hs).
  destruct ks as [|k' ks].
  - exists (advance m). simpl. split_and!; try done. by rewrite Hi.
  - assert (0 < len (k' :: ks)) as Hpos by (unfold len; simpl length; lia).
    destruct (IH (advance m)) as (m' & Hfeed & Hc' & Hi' & Hb' & Hs'); try done.
    + rewrite Hst. by rewrite (proj2 (Z.eqb_neq _ _)) by lia.
    + lia.
    + rewrite Hc, Hi. lia.
    + by rewrite Hc.
    + exists m'. rewrite Hfeed. simpl. split_and!; try done.
      * congruence.
      * lia.
      * by rewrite <- Hc.
Qed.

Lemma skip_through_three :
  ∃ m',
    feed m_three (KeyMsg <$> ["right"; "n"]) = Ret (m', []) ∧
    cards m' = cards m_three ∧
    currentCardIndex m' = currentCardIndex m_three + len ["right"; "n"] ∧
    showBack m' = false ∧
    state m' =
      if currentCardIndex m' =? len (cards m_three) then stateNoCards
      else stateDisplayingCard.
Proof.
  apply (skip_through ["right"; "n"] m_three).
  - repeat constructor.
  - reflexivity.
  - by vm_compute.
  - done.
  - by vm_compute.
  - by vm_compute.
Defined.

(** X5: answering a shown card: a legal ease key starts one answer call
    for the card under the cursor and changes nothing; when the call
    succeeds the command delivers the answered message, and handling it
    moves the cursor on by one, hides the back, keeps the list, and ends
    in Exhausted exactly on the last card. *)
Theorem answer_round P m c ease r :
  state m = stateDisplayingCard → showBack m = true →
  index (cards m) (currentCardIndex m) = Ret c →
  is_Some (EaseOptions c !! ease) → 1 ≤ ease ≤ 4 →
  len (cards m) ≤ intMax →
  postAnkiConnect P "answerCards" 6 (answerCardsParams (ID c) ease) = inl r →
  ∃ m',
    feed m [KeyMsg (itoa ease)] = Ret (m, [answerCard (ID c) ease]) ∧
    run P (answerCard (ID c) ease) = Some (cardAnsweredMsg (ID c) ease) ∧
    Update m (cardAnsweredMsg (ID c) ease) = Ret (m', None) ∧
    cards m' = cards m ∧
    currentCardIndex m' = currentCardIndex m + 1 ∧
    showBack m' = false ∧
    state m' =
      if currentCardIndex m + 1 =? len (cards m) then stateNoCards
      else stateDisplayingCard.
Proof.
  intros Hs Hb Hc [label Hl] Hease Hlen Hpost.
  pose proof Hc as [H0 Hlook]%index_Ret.
  pose proof (lookup_lt_Some _ _ _ Hlook) as Hlt.
  assert (0 ≤ currentCardIndex m < len (cards m)) as Hi by (unfold len; lia).
  destruct (advance_shown m Hs Hi Hlen) as (Hc' & Hi' & Hb' & _ & Hst).
  exists (advance m). split_and!; try done.
  - destruct (ease_key_of ease Hease) as (Hq & He & Hk & Ha).
    rewrite feed_cons. unfold Update. rewrite Hq, He, Hk, Ha, Hs, Hb, Hc, Hl. simpl.
    by rewrite (proj2 (Z.ltb_lt _ _)) by lia.
  - simpl. unfold answerCardCmd. by rewrite Hpost.
Qed.

Lemma answer_round_three :
  ∃ m',
    feed m_three [KeyMsg (itoa 3)] = Ret (m_three, [answerCard 102 3]) ∧
    run anki_up (answerCard 102 3) = Some (cardAnsweredMsg 102 3) ∧
    Update m_three (cardAnsweredMsg 102 3) = Ret (m', None) ∧
    cards m' = cards m_three ∧
    currentCardIndex m' = currentCardIndex m_three + 1 ∧
    showBack m' = false ∧
    state m' =
      if currentCardIndex m_three + 1 =? len (cards m_three) then stateNoCards
      else stateDisplayingCard.
Proof.
  apply (answer_round anki_up m_three (cardOf info102) 3 JNull).
  - reflexivity.
  - reflexivity.
  - by vm_compute.
  - exists "Good". by vm_compute.
  - lia.
  - by vm_compute.
  - by vm_compute.
Defined.

(** X6: when the answer call fails, the command delivers an error that
    wraps the call's error under a text naming the card and the ease;
    handling it in any model leaves phase Failed with that error stored,
    and the cursor, the reveal flag and the list as they were. *)
Theorem answer_failure_keeps_cursor P m cardID ease e :
  postAnkiConnect P "answerCards" 6 (answerCardsParams cardID ease) = inr e →
  ∃ e' m',
    run P (answerCard cardID ease) = Some (errMsg e') ∧
    Unwrap e' = Some e ∧
    Error e' = ("failed to answer card " +:+ itoa cardID +:+ " with ease "
                +:+ itoa ease +:+ ": ") +:+ Error e +:+ "" ∧
    Update m (errMsg e') = Ret (m', None) ∧
    state m' = stateError ∧ err m' = Some e' ∧
    currentCardIndex m' = currentCardIndex m ∧
    showBack m' = showBack m ∧ cards m' = cards m.
Proof.
  intros Hpost. eexists _, _. simpl. unfold answerCardCmd. rewrite Hpost.
  split; [reflexivity|]. by split_and!.
Qed.

Lemma answer_failure_refused :
  ∃ e' m',
    run anki_down (answerCard 101 3) = Some (errMsg e') ∧
    Unwrap e' =
      Some (Errorf_w ("failed to connect to AnkiConnect at " +:+ ankiConnectURL +:+ ": ")
              refused
              (nl +:+ "Ensure Anki is running and AnkiConnect add-on is installed.")) ∧
    Error e' =
      ("failed to answer card " +:+ itoa 101 +:+ " with ease " +:+ itoa 3 +:+ ": ")
      +:+ Error (Errorf_w
                   ("failed to connect to AnkiConnect at " +:+ ankiConnectURL +:+ ": ")
                   refused
                   (nl +:+ "Ensure Anki is running and AnkiConnect add-on is installed."))
      +:+ "" ∧
    Update m_back (errMsg e') = Ret (m', None) ∧
    state m' = stateError ∧ err m' = Some e' ∧
    currentCardIndex m' = currentCardIndex m_back ∧
    showBack m' = showBack m_back ∧ cards m' = cards m_back.
Proof.
  apply (answer_failure_keeps_cursor anki_down m_back 101 3). by vm_compute.
Defined.

(** ** Invariants of the running program *)

Lemma keys_outside_loading_aux m k m' c :
  state m = stateLoading → Update m (KeyMsg k) = Ret (m', c) →
  dispatch c = [] ∧ state m' = stateLoading.
Proof.
  intros Hs HU. apply Update_key in HU.
  destruct HU; simpl; try done; congruence.
Qed.

Lemma keys_never_fail_aux m k m' c :
  Update m (KeyMsg k) = Ret (m', c) →
  err m' = err m ∧
  (state m' = state m ∨ (state m = stateDisplayingCard ∧ state m' = stateNoCards)).
Proof.
  intros HU. apply Update_key in HU.
  destruct HU as [| | | |Hs]; simpl; auto.
  rewrite advance_state. unfold advance. simpl.
  split; [by destruct (_ <=? _)|]. destruct (_ <=? _); auto.
Qed.

(** The answer a key starts is for the card under the cursor, with an
    ease of 1-4 that the card offers. *)
Lemma Update_starts_answer m k m' cardID ease :
  Update m (KeyMsg k) = Ret (m', Some (answerCard cardID ease)) →
  1 ≤ ease ≤ 4 ∧ k = itoa ease ∧
  ∃ c, index (cards m) (currentCardIndex m) = Ret c ∧ ID c = cardID ∧
       is_Some (EaseOptions c !! ease).
Proof.
  unfold Update.
  destruct (key_in k ["q"; "ctrl+c"]); [done|].
  destruct (key_in k ["enter"]); [by repeat case_match|].
  destruct (key_in k ["1"; "2"; "3"; "4"]) eqn:Hk; [|by repeat case_match].
  destruct (ease_key k Hk) as (ease' & Hease & -> & ->).
  destruct (bool_decide _ && showBack m); [|done].
  destruct (_ <? _); [|done].
  destruct (index _ _) as [c|] eqn:Hi; [|done].
  destruct (EaseOptions c !! ease') eqn:He; [|done].
  intros [= <- <- <-]. split; [done|]. split; [done|]. exists c. eauto.
Qed.

Lemma index_elem_of {A} (l : list A) i x : index l i = Ret x → x ∈ l.
Proof. intros [_ H]%index_Ret. by eapply list_elem_of_lookup_2. Qed.

Lemma legal_task_cards m m' c :
  is_answer c → cards m' = cards m → legal_task m c → legal_task m' c.
Proof. intros (cardID & ease & ->) Hc. simpl. by rewrite Hc. Qed.

Lemma Forall_legal_cards m m' pend :
  Forall is_answer pend → cards m' = cards m →
  Forall (legal_task m) pend → Forall (legal_task m') pend.
Proof.
  intros Ha Hc Hl. rewrite Forall_forall in *. intros c Hin.
  apply (legal_task_cards m); auto.
Qed.

Lemma legal_step s s' :
  Inv s → Forall (legal_task (mdl s)) (pending s) → step s s' →
  Forall (legal_task (mdl s')) (pending s').
Proof.
  intros HI Hlegal Hstep.
  destruct Hstep as [k m' c HU|m' c HU|i t P msg m' c Hi Hrun Hfit HU]; simpl.
  - destruct HI as [HL|HD].
    + destruct HL as (Hp & Hs & _).
      destruct (keys_outside_loading_aux (mdl s) k m' c Hs HU) as (-> & Hs').
      rewrite app_nil_r, Hp. apply Forall_singleton. simpl. congruence.
    + destruct HD as (Hp & _).
      pose proof (Update_key _ _ _ _ HU) as Heff.
      assert (cards m' = cards (mdl s)) as Hc.
      { destruct Heff; simpl; auto using advance_cards. }
      apply Forall_app. split; [by apply (Forall_legal_cards (mdl s))|].
      destruct Heff; simpl; try apply Forall_nil_2.
      apply Forall_singleton.
      destruct (Update_starts_answer _ _ _ _ _ HU) as (Hease & _ & c' & Hi & Hid & Hl).
      simpl. split; [done|]. exists c'. split_and!; try done.
      by apply index_elem_of in Hi.
  - injection HU as <- <-. simpl. by rewrite app_nil_r.
  - assert (c = None) as ->.
    { eapply Update_completion; [|exact HU].
      intros k ->. destruct t; simpl in Hrun; try done.
      - injection Hrun as Hrun. destruct (fetch_delivers P) as [[? H]|[? H]]; congruence.
      - injection Hrun as Hrun.
        destruct (answer_delivers P cardID ease) as [H|[? H]]; congruence. }
    simpl. rewrite app_nil_r. destruct HI as [HL|HD].
    + destruct HL as (Hp & _). rewrite Hp in Hi |- *.
      destruct i as [|i]; [apply Forall_nil_2|done].
    + destruct HD as (Hp & _).
      pose proof (Forall_lookup_1 _ _ _ _ Hp Hi) as (cardID & ease & ->).
      simpl in Hrun. injection Hrun as <-.
      apply (Forall_legal_cards (mdl s)); [by apply Forall_delete| |by apply Forall_delete].
      destruct (answer_delivers P cardID ease) as [Hm|[e Hm]]; rewrite Hm in HU;
        simpl in HU; injection HU as <-; auto using advance_cards.
Qed.

(** X7: every task on its way is legal: an answer call is for a card of
    the session, with an ease from 1 to 4 that this card offers, and a
    fetch is on its way during Loading only. *)
Theorem pending_tasks_legal s :
  reachable s → Forall (legal_task (mdl s)) (pending s).
Proof.
  intros Hr.
  enough (Inv s ∧ Forall (legal_task (mdl s)) (pending s)) as [_ H] by done.
  apply (rtc_ind_r (R:=step)
           (λ z, Inv z ∧ Forall (legal_task (mdl z)) (pending z)) start);
    [| |done].
  - split; [apply Inv_start|]. by apply Forall_singleton.
  - intros y z _ Hstep [HI Hl]. split; [by eapply Inv_step|by eapply legal_step].
Qed.

Lemma pending_tasks_legal_card101 :
  Forall (legal_task (mdl s_answering_twice)) (pending s_answering_twice).
Proof.
  apply (pending_tasks_legal s_answering_twice).
  eapply reachable_step; [apply s_answering_reachable|apply step_answer_again].
Defined.

(** X8: once the cards are loaded the session never loads again: a
    transition from a phase other than Loading keeps the card list and
    does not go back to Loading. *)
Theorem cards_fixed_after_load s s' :
  reachable s → step s s' → state (mdl s) ≠ stateLoading →
  cards (mdl s') = cards (mdl s) ∧ state (mdl s') ≠ stateLoading.
Proof.
  intros Hr Hstep Hs. pose proof (reachable_Inv s Hr) as HI.
  assert (Inv s') as HI' by (by eapply Inv_step).
  split.
  - destruct HI as [HL|HD]; [by destruct HL as (_ & ? & _)|].
    destruct HD as (Hp & _).
    destruct Hstep as [k m' c HU|m' c HU|i t P msg m' c Hi Hrun Hfit HU]; simpl.
    + apply Update_key in HU. destruct HU; simpl; auto using advance_cards.
    + by injection HU as <- <-.
    + pose proof (Forall_lookup_1 _ _ _ _ Hp Hi) as (cardID & ease & ->).
      simpl in Hrun. injection Hrun as <-.
      destruct (answer_delivers P cardID ease) as [Hm|[e Hm]]; rewrite Hm in HU;
        simpl in HU; injection HU as <-; auto using advance_cards.
  - destruct HI' as [HL'|HD']; [|by destruct HD' as (_ & ? & _)].
    destruct HL' as (Hp' & _). destruct HI as [HL|HD]; [by destruct HL as (_ & ? & _)|].
    destruct HD as (Hp & _). exfalso.
    destruct Hstep as [k m' c HU|m' c HU|i t P msg m' c Hi Hrun Hfit HU]; simpl in Hp'.
    + assert (fetchDueCards ∈ (pending s ++ dispatch c)%list) as Hin
        by (rewrite Hp'; apply list_elem_of_singleton; done).
      apply elem_of_app in Hin as [Hin|Hin].
      * rewrite Forall_forall in Hp. destruct (Hp _ Hin) as (? & ? & ?). done.
      * apply Update_key in HU. destruct HU; simpl in Hin;
          by (apply elem_of_nil in Hin || apply list_elem_of_singleton in Hin).
    + injection HU as <- <-. simpl in Hp'. rewrite app_nil_r in Hp'.
      rewrite Hp' in Hp. apply Forall_singleton in Hp as (? & ? & ?). done.
    + assert (fetchDueCards ∈ (delete i (pending s) ++ dispatch c)%list) as Hin
        by (rewrite Hp'; apply list_elem_of_singleton; done).
      apply elem_of_app in Hin as [Hin|Hin].
      * apply (Forall_delete _ _ i) in Hp. rewrite Forall_forall in Hp.
        destruct (Hp _ Hin) as (? & ? & ?). done.
      * pose proof (Forall_lookup_1 _ _ _ _ Hp Hi) as (cardID & ease & ->).
        simpl in Hrun. injection Hrun as <-.
        destruct (answer_delivers P cardID ease) as [Hm|[e Hm]]; rewrite Hm in HU;
          simpl in HU; injection HU as _ <-; by apply elem_of_nil in Hin.
Qed.

Lemma cards_fixed_after_load_card101 :
  cards (mdl s_answering_twice) = cards (mdl s_answering) ∧
  state (mdl s_answering_twice) ≠ stateLoading.
Proof.
  apply (cards_fixed_after_load s_answering s_answering_twice).
  - apply s_answering_reachable.
  - apply step_answer_again.
  - done.
Defined.

(** X9: the phase is Loading exactly while the fetch that [Init] started
    is the one pending task. *)
Theorem loading_iff_fetch_pending s :
  reachable s →
  (state (mdl s) = stateLoading ↔ pending s = [fetchDueCards]) ∧
  (state (mdl s) = stateLoading ↔ fetchDueCards ∈ pending s).
Proof.
  intros Hr. destruct (reachable_Inv s Hr) as [HL|HD].
  - destruct HL as (Hp & Hs & _). rewrite Hp.
    split; (split; [intros _|done]); [done|by apply list_elem_of_singleton].
  - destruct HD as (Hp & Hs & _).
    assert (fetchDueCards ∉ pending s) as Hnot.
    { intros Hin. rewrite Forall_forall in Hp.
      destruct (Hp _ Hin) as (? & ? & ?). done. }
    split; (split; [done|]).
    + intros Heq. destruct Hnot. rewrite Heq. by apply list_elem_of_singleton.
    + done.
Qed.

Lemma loading_iff_fetch_pending_start :
  (state (mdl start) = stateLoading ↔ pending start = [fetchDueCards]) ∧
  (state (mdl start) = stateLoading ↔ fetchDueCards ∈ pending start).
Proof. apply (loading_iff_fetch_pending start). apply start_reachable. Defined.

Lemma Update_keeps_error_set m msg m' c :
  Update m msg = Ret (m', c) →
  (state m = stateError → is_Some (err m)) →
  state m' = stateError → is_Some (err m').
Proof.
  intros HU Hinv. destruct msg as [k|cs|e|cardID ease|].
  - destruct (keys_never_fail_aux m k m' c HU) as (-> & [-> | [_ ->]]); [done|done].
  - simpl in HU. destruct (len cs =? 0); by injection HU as <- <-.
  - simpl in HU. injection HU as <- <-. simpl. eauto.
  - simpl in HU. injection HU as <- <-.
    rewrite advance_state. unfold advance. simpl.
    destruct (_ <=? _); simpl; [done|]. done.
  - simpl in HU. by injection HU as <- <-.
Qed.

(** X10: in phase Failed an error is stored, so the Failed frame shows
    the text of an error and never the text of a nil error. *)
Theorem failed_shows_its_error s :
  reachable s → state (mdl s) = stateError →
  ∃ e, err (mdl s) = Some e ∧
       ∀ T ρ, quitting (mdl s) = false →
         View T ρ (mdl s) =
         Ret (lipgloss.JoinVertical T lipgloss.Center
                [lipgloss.Render T (title (model_styles (mdl s))) "Anki Study TUI";
                 "";
                 lipgloss.Render T (error_ (model_styles (mdl s)))
                   ("Error: " +:+ Error e +:+ nl)
                 +:+ lipgloss.Render T (prompt (model_styles (mdl s)))
                       "Press 'q' to quit."]).
Proof.
  intros Hr Hs.
  assert (state (mdl s) = stateError → is_Some (err (mdl s))) as Hset.
  { apply (rtc_ind_r (R:=step)
             (λ z, state (mdl z) = stateError → is_Some (err (mdl z))) start);
      [done| |done].
    intros y z _ Hstep IH.
    destruct Hstep as [k m' c HU|m' c HU|i t P msg m' c Hi Hrun Hfit HU]; simpl;
      by eapply Update_keeps_error_set. }
  destruct (Hset Hs) as [e He]. exists e. split; [done|].
  intros T ρ Hq. unfold View. by rewrite Hq, Hs, He.
Qed.

Lemma failed_shows_its_error_card101 :
  ∃ e, err (mdl s_failed_pending) = Some e ∧
       ∀ T ρ, quitting (mdl s_failed_pending) = false →
         View T ρ (mdl s_failed_pending) =
         Ret (lipgloss.JoinVertical T lipgloss.Center
                [lipgloss.Render T (title (model_styles (mdl s_failed_pending)))
                   "Anki Study TUI";
                 "";
                 lipgloss.Render T (error_ (model_styles (mdl s_failed_pending)))
                   ("Error: " +:+ Error e +:+ nl)
                 +:+ lipgloss.Render T (prompt (model_styles (mdl s_failed_pending)))
                       "Press 'q' to quit."]).
Proof.
  apply (failed_shows_its_error s_failed_pending).
  - apply s_failed_pending_reachable.
  - reflexivity.
Defined.

(** X11: the running program never panics: in every reachable state
    [Update] returns for every message and [View] returns a frame under
    every terminal and iteration order. *)
Theorem reachable_never_panics s :
  reachable s →
  (∀ msg, ∃ m' c, Update (mdl s) msg = Ret (m', c)) ∧
  (∀ T ρ, ∃ frame, View T ρ (mdl s) = Ret frame).
Proof.
  intros Hr.
  assert (state (mdl s) = stateDisplayingCard → 0 ≤ currentCardIndex (mdl s)) as H0.
  { intros Hs. destruct (reachable_Inv s Hr) as [HL|HD].
    - destruct HL as (_ & Hl & _). congruence.
    - destruct HD as (_ & _ & _ & _ & _ & Hd). by apply Hd. }
  split.
  - intros msg. destruct (Update_returns (mdl s) msg H0) as [[m' c] H]. eauto.
  - intros T ρ. apply View_returns_iff. intros (_ & Hs & Hneg & _).
    specialize (H0 Hs). lia.
Qed.

Lemma reachable_never_panics_card101 :
  (∀ msg, ∃ m' c, Update (mdl s_answering) msg = Ret (m', c)) ∧
  (∀ T ρ, ∃ frame, View T ρ (mdl s_answering) = Ret frame).
Proof. apply (reachable_never_panics s_answering). apply s_answering_reachable. Defined.

(** ** The fetch *)

(** X12: when the query for due cards yields no identifier (an empty
    array, or one that holds no number), the fetch delivers the empty
    list without asking for details, whatever else the platform would
    answer, and the initial model goes to Exhausted with no card and
    shows the fixed text of that phase. *)
Theorem no_due_cards P ids :
  postAnkiConnect P "findCards" 6 (findCardsParams "is:due") = inl (JArr ids) →
  omap floatID ids = [] →
  fetchDueCardsCmd P = cardsLoadedMsg [] ∧
  ∃ m',
    Update InitialModel (cardsLoadedMsg []) = Ret (m', None) ∧
    state m' = stateNoCards ∧ cards m' = [] ∧
    ∀ T ρ,
      View T ρ m' =
      Ret (lipgloss.JoinVertical T lipgloss.Center
             [lipgloss.Render T (title newStyles) "Anki Study TUI"; "";
              "No cards due today! Great job!" +:+ nl
              +:+ lipgloss.Render T (prompt newStyles) "Press 'q' to quit."]).
Proof.
  intros Hfind Hids. split.
  - unfold fetchDueCardsCmd. by rewrite Hfind, Hids.
  - by eexists.
Qed.

Lemma no_due_cards_anki_500 :
  fetchDueCardsCmd anki_500 = cardsLoadedMsg [] ∧
  ∃ m',
    Update InitialModel (cardsLoadedMsg []) = Ret (m', None) ∧
    state m' = stateNoCards ∧ cards m' = [] ∧
    ∀ T ρ,
      View T ρ m' =
      Ret (lipgloss.JoinVertical T lipgloss.Center
             [lipgloss.Render T (title newStyles) "Anki Study TUI"; "";
              "No cards due today! Great job!" +:+ nl
              +:+ lipgloss.Render T (prompt newStyles) "Press 'q' to quit."]).
Proof. by apply (no_due_cards anki_500 []). Defined.






(** X14: a result that is no array is an error of its own: the fetch
    delivers an error that names the call and the Go type of the result
    ("<nil>" for a missing result) and wraps nothing; this holds for the
    query and, after it gave identifiers, for the details. *)
Theorem fetch_unexpected_format P j :
  (∀ l, j ≠ JArr l) →
  (postAnkiConnect P "findCards" 6 (findCardsParams "is:due") = inl j →
   fetchDueCardsCmd P
   = errMsg (errorString ("unexpected findCards result format: " +:+ fmt_T j))) ∧
  (∀ ids,
     postAnkiConnect P "findCards" 6 (findCardsParams "is:due") = inl (JArr ids) →
     omap floatID ids ≠ [] →
     postAnkiConnect P "cardsInfo" 6 (cardsInfoParams (omap floatID ids)) = inl j →
     fetchDueCardsCmd P
     = errMsg (errorString ("unexpected cardsInfo result format: " +:+ fmt_T j))).
Proof.
  intros Hj. split.
  - intros Hfind. unfold fetchDueCardsCmd. rewrite Hfind.
    destruct j; try done. by destruct (Hj l).
  - intros ids Hfind Hids Hinfo. unfold fetchDueCardsCmd. rewrite Hfind.
    destruct (len (omap floatID ids) =? 0) eqn:Hz.
    { apply Z.eqb_eq, len_nil_iff in Hz. done. }
    rewrite Hinfo. destruct j; try done. by destruct (Hj l).
Qed.

Lemma fetch_unexpected_format_null :
  fetchDueCardsCmd anki_null
  = errMsg (errorString ("unexpected findCards result format: " +:+ fmt_T JNull)).
Proof.
  destruct (fetch_unexpected_format anki_null JNull) as [H _]; [done|].
  apply H. by vm_compute.
Defined.

(** ** Ease options *)

(** X15: the ease options of a card depend on which button codes its
    record holds, not on their order or on repetitions. *)
Theorem easeOptionsOf_same_codes (l l' : list Z) :
  (∀ N, N ∈ l ↔ N ∈ l') → easeOptionsOf l = easeOptionsOf l'.
Proof.
  intros Hsame. apply map_eq. intros N.
  destruct (decide (N ∈ l)) as [Hin|Hnot].
  - rewrite !easeOptionsOf_lookup; [done| |done]. by apply Hsame.
  - transitivity (@None string); [|symmetry]; apply eq_None_not_Some;
      rewrite easeOptionsOf_dom; [done|]. by rewrite <- Hsame.
Qed.

Lemma easeOptionsOf_same_codes_13 :
  easeOptionsOf [1; 3] = easeOptionsOf [3; 1; 1].
Proof.
  apply (easeOptionsOf_same_codes [1; 3] [3; 1; 1]).
  intros N. rewrite !elem_of_cons, !elem_of_nil. tauto.
Defined.

(** ** The client *)

(** X16: a call of the client ends in one of two ways: with an error
    whose text names one of the five causes, or with the [result] of a
    response that was read and decoded and whose [error] is null. *)
Theorem postAnkiConnect_outcomes P action version params :
  (∀ e, postAnkiConnect P action version params = inr e → is_Some (cause_of e)) ∧
  (∀ r, postAnkiConnect P action version params = inl r →
        ∃ reqBody resp body ankiResp,
          Marshal_request P (mkRequest action version params) = inl reqBody ∧
          Post P ankiConnectURL "application/json" reqBody = inl resp ∧
          Body resp = inl body ∧
          Unmarshal_response P body = inl ankiResp ∧
          Error_ ankiResp = JNull ∧ r = Result ankiResp).
Proof.
  unfold postAnkiConnect.
  destruct (Marshal_request P _) as [reqBody|e0] eqn:Hm.
  2:{ split; [intros e [= <-]; rewrite cause_marshal; eauto|done]. }
  destruct (Post P _ _ _) as [resp|e0] eqn:Hp.
  2:{ split; [intros e [= <-]; rewrite cause_connect; eauto|done]. }
  destruct (Body resp) as [body|e0] eqn:Hb.
  2:{ split; [intros e [= <-]; rewrite cause_read; eauto|done]. }
  destruct (Unmarshal_response P body) as [ankiResp|e0] eqn:Hu.
  2:{ split; [intros e [= <-]; rewrite cause_unmarshal; eauto|done]. }
  destruct (Error_ ankiResp) eqn:He;
    (split; [intros e [= <-]; rewrite ?cause_reported; eauto|]); try done.
  intros r [= <-]. by eexists _, _, _, _.
Qed.

Lemma postAnkiConnect_outcomes_refused :
  is_Some (cause_of
             (Errorf_w ("failed to connect to AnkiConnect at " +:+ ankiConnectURL +:+ ": ")
                refused
                (nl +:+ "Ensure Anki is running and AnkiConnect add-on is installed."))).
Proof.
  apply (proj1 (postAnkiConnect_outcomes anki_down "findCards" 6
                  (findCardsParams "is:due"))).
  by vm_compute.
Defined.

(** ** More on the view *)

Lemma index_fmap {A B} (f : A → B) (l : list A) i :
  index (f <$> l) i =
  match index l i with
  | Ret x => Ret (f x)
  | Panic e => Panic e
  end.
Proof.
  unfold index, len. rewrite length_fmap, list_lookup_fmap.
  destruct (_ && _); [|done]. by destruct (l !! Z.to_nat i).
Qed.

(** X17: as long as the back is not revealed the frame shows nothing of
    it: it is the frame of the same model with every back and every set
    of ease options erased, under any iteration order. *)
Theorem View_hides_back T ρ ρ' m :
  showBack m = false →
  View T ρ m = View T ρ' (set_cards (redact <$> cards m) m).
Proof.
  intros Hb. unfold View. simpl.
  destruct (quitting m); [done|].
  destruct (state m); try done.
  replace (len (redact <$> cards m)) with (len (cards m))
    by (unfold len; by rewrite length_fmap).
  destruct (_ && _); [|done].
  rewrite index_fmap. destruct (index (cards m) (currentCardIndex m)); [|done].
  by rewrite Hb.
Qed.

Lemma View_hides_back_card101 :
  View plain ascending m_front
  = View plain descending (set_cards (redact <$> cards m_front) m_front).
Proof. apply (View_hides_back plain ascending descending m_front). reflexivity. Defined.

Lemma legal_orders_agree (ρ ρ' : range_order) (options : gmap Z string) :
  legal_order ρ → legal_order ρ' → (size options ≤ 1)%nat →
  ρ options = ρ' options.
Proof.
  intros Hρ Hρ' Hsize. specialize (Hρ options). specialize (Hρ' options).
  rewrite <- length_map_to_list in Hsize.
  destruct (map_to_list options) as [|x [|y l]]; simpl in Hsize; [| |lia].
  - apply Permutation_nil_r in Hρ, Hρ'. congruence.
  - apply Permutation_singleton_r in Hρ, Hρ'. congruence.
Qed.

(** X18: when no card has more than one ease option, the frame is the
    same under every legal iteration order. *)
Theorem View_one_option_any_order T ρ ρ' m :
  legal_order ρ → legal_order ρ' →
  (∀ c, c ∈ cards m → (size (EaseOptions c) ≤ 1)%nat) →
  View T ρ m = View T ρ' m.
Proof.
  intros Hρ Hρ' Hsmall. unfold View.
  destruct (quitting m); [done|].
  destruct (state m); try done.
  destruct (_ && _); [|done].
  destruct (index (cards m) (currentCardIndex m)) as [c|] eqn:Hi; [|done].
  destruct (showBack m); [|done].
  rewrite (legal_orders_agree ρ ρ' (EaseOptions c)); auto.
  apply Hsmall. by apply index_elem_of in Hi.
Qed.

Lemma View_one_option_card103 :
  View plain ascending m_back103 = View plain descending m_back103.
Proof.
  apply (View_one_option_any_order plain ascending descending m_back103).
  - apply ascending_legal.
  - apply descending_legal.
  - intros c Hc. apply list_elem_of_singleton in Hc as ->. by vm_compute.
Defined.

(** X19: in every reachable state of phase Reviewing the frame is that
    of the card under the cursor: its counter "Card i/N" has i one above
    the cursor, between 1 and N, and its body holds the front of that card
    and, once revealed, its back and its buttons. *)
Theorem counter_in_range T ρ s :
  reachable s →
  state (mdl s) = stateDisplayingCard → quitting (mdl s) = false →
  1 ≤ currentCardIndex (mdl s) + 1 ≤ len (cards (mdl s)) ∧
  ∃ c,
    cards (mdl s) !! Z.to_nat (currentCardIndex (mdl s)) = Some c ∧
    View T ρ (mdl s) = Ret (card_frame T (mdl s) (card_body T ρ (mdl s) c)).
Proof.
  intros Hr Hs Hq. destruct (reachable_Inv s Hr) as [HL|HD].
  { destruct HL as (_ & Hl & _). congruence. }
  destruct HD as (_ & _ & _ & Hlen & Hint & Hd). specialize (Hd Hs).
  split; [lia|].
  destruct (index_in_range (cards (mdl s)) (currentCardIndex (mdl s)) Hd) as [c Hc].
  exists c. split; [by apply index_Ret in Hc as [_ ?]|].
  unfold View, card_frame, card_body. rewrite Hq, Hs, Hc.
  rewrite (proj2 (Z.ltb_lt 0 _)) by lia.
  rewrite (proj2 (Z.ltb_lt (currentCardIndex (mdl s)) _)) by lia. simpl.
  rewrite incr_small by (done || lia). by destruct (showBack (mdl s)).
Qed.

Lemma counter_in_range_card101 :
  1 ≤ currentCardIndex (mdl s_answering) + 1 ≤ len (cards (mdl s_answering)) ∧
  ∃ c,
    cards (mdl s_answering) !! Z.to_nat (currentCardIndex (mdl s_answering)) = Some c ∧
    View plain ascending (mdl s_answering)
    = Ret (card_frame plain (mdl s_answering)
             (card_body plain ascending (mdl s_answering) c)).
Proof.
  apply (counter_in_range plain ascending s_answering).
  - apply s_answering_reachable.
  - reflexivity.
  - reflexivity.
Defined.

Lemma Update_keeps_quitting m msg m' c :
  Update m msg = Ret (m', c) → quitting m = true → quitting m' = true.
Proof.
  intros HU Hq. destruct msg as [k|cs|e|cardID ease|].
  - apply Update_key in HU. destruct HU; simpl; try done.
    unfold advance. simpl. by destruct (_ <=? _).
  - simpl in HU. destruct (len cs =? 0); by injection HU as <- <-.
  - simpl in HU. by injection HU as <- <-.
  - simpl in HU. injection HU as <- <-.
    unfold advance. simpl. by destruct (_ <=? _).
  - simpl in HU. by injection HU as <- <-.
Qed.

Lemma feed_keeps_quitting msgs : ∀ m m' cs,
  feed m msgs = Ret (m', cs) → quitting m = true → quitting m' = true.
Proof.
  induction msgs as [|msg msgs IH]; intros m m' cs.
  - simpl. by intros [= <- <-].
  - rewrite feed_cons. destruct (Update m msg) as [[m1 c]|] eqn:HU; [|done].
    destruct (feed m1 msgs) as [[m2 cs2]|] eqn:Hf; [|done].
    intros [= <- <-] Hq. eapply IH; [done|]. by eapply Update_keeps_quitting.
Qed.

(** X20: after a quit key the frame is the exit text and stays it,
    whatever messages are handled afterwards, under every terminal and
    iteration order. *)
Theorem exit_text_after_quit T ρ m k msgs m' cs :
  k ∈ ["q"; "ctrl+c"] →
  feed m (KeyMsg k :: msgs) = Ret (m', cs) →
  quitting m' = true ∧
  View T ρ m' = Ret ("Exiting Anki Study TUI..." +:+ nl).
Proof.
  intros Hk%key_in_spec. rewrite feed_cons. unfold Update. rewrite Hk.
  destruct (feed _ msgs) as [[m2 cs2]|] eqn:Hf; [|done].
  intros [= <- <-].
  assert (quitting m2 = true) as Hq by (by eapply feed_keeps_quitting).
  split; [done|]. unfold View. by rewrite Hq.
Qed.

Lemma exit_text_after_quit_card101 :
  quitting (advance (set_quitting true m_back)) = true ∧
  View plain ascending (advance (set_quitting true m_back))
  = Ret ("Exiting Anki Study TUI..." +:+ nl).
Proof.
  apply (exit_text_after_quit plain ascending m_back "q" [cardAnsweredMsg 101 3]
           (advance (set_quitting true m_back)) []).
  - apply key_in_spec. reflexivity.
  - by vm_compute.
Defined.

(** X21: a loaded message with cards starts the review afresh from any
    model: the list is the loaded one, the cursor is on its first card,
    the back is hidden and the phase is Reviewing; [quitting] stays as it
    was, and the frame shows "Card 1/N", the front of the first card and
    the prompt to reveal, or the exit text when quitting was set. *)
Theorem load_starts_at_first_card T ρ m c cs :
  ∃ m',
    Update m (cardsLoadedMsg (c :: cs)) = Ret (m', None) ∧
    cards m' = c :: cs ∧ currentCardIndex m' = 0 ∧
    showBack m' = false ∧ state m' = stateDisplayingCard ∧
    quitting m' = quitting m ∧
    View T ρ m' =
    if quitting m then Ret ("Exiting Anki Study TUI..." +:+ nl)
    else
      Ret (card_frame T m'
             (lipgloss.Render T (front (model_styles m)) (Front c) +:+ nl +:+ nl
              +:+ lipgloss.Render T (prompt (model_styles m))
                    "Press ENTER to reveal back")).
Proof.
  assert (0 < len (c :: cs)) as Hpos by (unfold len; simpl length; lia).
  assert ((len (c :: cs) =? 0) = false) as Hne by (apply Z.eqb_neq; lia).
  eexists. split.
  { unfold Update. rewrite Hne. reflexivity. }
  by split_and!.
Qed.

Lemma load_starts_at_first_card_101 :
  ∃ m',
    Update (set_quitting true m_failed) (cardsLoadedMsg [card101]) = Ret (m', None) ∧
    cards m' = [card101] ∧ currentCardIndex m' = 0 ∧
    showBack m' = false ∧ state m' = stateDisplayingCard ∧
    quitting m' = true ∧
    View plain ascending m' = Ret ("Exiting Anki Study TUI..." +:+ nl).
Proof.
  exact (load_starts_at_first_card plain ascending (set_quitting true m_failed)
           card101 []).
Defined.

(** ** Keys and labels *)

(** X22: a key that is none of the nine the program knows does nothing in
    any model, and an ease key does nothing while the back is hidden: a
    card cannot be answered before it is revealed. *)
Theorem ignored_keys m k :
  (k ∉ ["q"; "ctrl+c"; "enter"; "1"; "2"; "3"; "4"; "right"; "n"]) ∨
  ((k ∈ ["1"; "2"; "3"; "4"]) ∧ showBack m = false) →
  Update m (KeyMsg k) = Ret (m, None).
Proof.
  intros [Hk|[Hk Hb]]; unfold Update.
  - assert (∀ ks, (∀ x, x ∈ ks →
                        x ∈ ["q"; "ctrl+c"; "enter"; "1"; "2"; "3"; "4"; "right"; "n"]) →
                  key_in k ks = false) as Hno.
    { intros ks Hsub. destruct (key_in k ks) eqn:Hin; [|done].
      apply key_in_spec in Hin. destruct Hk. by apply Hsub. }
    rewrite !Hno; [done|..]; intros x; rewrite !elem_of_cons, !elem_of_nil; tauto.
  - apply key_in_spec in Hk. destruct (ease_key k Hk) as (ease & Hease & _ & ->).
    destruct (ease_key_of ease Hease) as (Hq & He & _ & _).
    rewrite Hq, He, Hk, Hb. by rewrite andb_false_r.
Qed.

Lemma ignored_keys_front :
  Update m_front (KeyMsg "3") = Ret (m_front, None).
Proof.
  apply (ignored_keys m_front "3"). right. split; [|reflexivity].
  apply key_in_spec. reflexivity.
Defined.

(** X23: the only key that starts an answer with ease [e] is the one that
    prints as [e], which is the number the button of [e] shows; [e] is one
    of 1-4, so a button with another code cannot be chosen. *)
Theorem answer_key_is_the_ease m k m' cardID ease :
  Update m (KeyMsg k) = Ret (m', Some (answerCard cardID ease)) →
  k = itoa ease ∧ 1 ≤ ease ≤ 4 ∧ m' = m ∧
  state m = stateDisplayingCard ∧ showBack m = true ∧
  ∃ c, index (cards m) (currentCardIndex m) = Ret c ∧ ID c = cardID ∧
       is_Some (EaseOptions c !! ease).
Proof.
  intros HU.
  destruct (Update_starts_answer _ _ _ _ _ HU) as (Hease & Hk & c & Hc & Hid & Hl).
  apply Update_key in HU. inversion HU; subst. by eauto 10.
Qed.

Lemma answer_key_is_the_ease_card101 :
  "3" = itoa 3 ∧ 1 ≤ 3 ≤ 4 ∧ m_back = m_back ∧
  state m_back = stateDisplayingCard ∧ showBack m_back = true ∧
  ∃ c, index (cards m_back) (currentCardIndex m_back) = Ret c ∧ ID c = 101 ∧
       is_Some (EaseOptions c !! 3).
Proof.
  apply (answer_key_is_the_ease m_back "3" m_back 101 3). by vm_compute.
Defined.

Lemma itoa_inj z z' : itoa z = itoa z' → z = z'.
Proof.
  unfold itoa. intros Heq.
  assert (∀ z, NilZero.int_of_string (NilZero.string_of_int (Z.to_int z))
               = Some (Z.to_int z)) as Hisi.
  { intros [|p|p]; [done|..]; apply NilZero.isi; simpl; intros [= H];
      by apply Unsigned.to_uint_nonnil in H. }
  apply (f_equal NilZero.int_of_string) in Heq. rewrite !Hisi in Heq.
  injection Heq as Heq. apply (f_equal Z.of_int) in Heq.
  by rewrite !DecimalZ.of_to in Heq.
Qed.

Lemma ease_label_cases N :
  (N = 1 ∧ ease_label N = "Again") ∨ (N = 2 ∧ ease_label N = "Hard") ∨
  (N = 3 ∧ ease_label N = "Good") ∨ (N = 4 ∧ ease_label N = "Easy") ∨
  (N ≠ 1 ∧ N ≠ 2 ∧ N ≠ 3 ∧ N ≠ 4 ∧ ease_label N = String "E" (String "a" (String "s"
     (String "e" (String " " (itoa N)))))).
Proof.
  unfold ease_label.
  destruct (Z.eqb_spec N 1) as [->|?]; [by left|].
  destruct (Z.eqb_spec N 2) as [->|?]; [by right; left|].
  destruct (Z.eqb_spec N 3) as [->|?]; [by right; right; left|].
  destruct (Z.eqb_spec N 4) as [->|?]; [by right; right; right; left|].
  by right; right; right; right.
Qed.

(** X24: two button codes never get the same label: the labels of the
    table are four different words, a generated label "Ease N" is none of
    them, and it tells N; so in the ease options of a card a label stands
    for one code. *)
Theorem ease_labels_distinct Buttons N M label :
  easeOptionsOf Buttons !! N = Some label →
  easeOptionsOf Buttons !! M = Some label →
  N = M.
Proof.
  intros HN HM.
  assert (N ∈ Buttons) as HinN by (apply easeOptionsOf_dom; eauto).
  assert (M ∈ Buttons) as HinM by (apply easeOptionsOf_dom; eauto).
  rewrite easeOptionsOf_lookup in HN, HM by done.
  injection HN as HN. injection HM as HM. rewrite <- HM in HN. clear HM label.
  destruct (ease_label_cases N) as [[-> HlN]|[[-> HlN]|[[-> HlN]|[[-> HlN]|(?&?&?&?&HlN)]]]];
    destruct (ease_label_cases M) as [[-> HlM]|[[-> HlM]|[[-> HlM]|[[-> HlM]|(?&?&?&?&HlM)]]]];
    try done; rewrite HlN, HlM in HN; try done.
  injection HN as HN. by apply itoa_inj.
Qed.

Lemma ease_labels_distinct_card101 :
  easeOptionsOf (Buttons info101) !! 3 = Some "Good" ∧ 3 = 3.
Proof.
  split; [by vm_compute|].
  apply (ease_labels_distinct (Buttons info101) 3 3 "Good"); by vm_compute.
Defined.
